(** * go-httpt: the round-trip queue behind [httpt.Server]

    A shallow embedding of [server.go] (package [httpt]) and of the response
    helpers of package [rt], together with the properties of the matching and
    dispatch engine: the queue of stacked round trips, the consuming lookup
    [tripQueue.pop], the normalisation of the request path and the fallbacks
    of [transport.RoundTrip]. *)

From Stdlib Require Import ZArith Lia Ascii String.
From stdpp Require Import base option list strings gmap.


(** ** Go's [strings] package

    [server.go] calls [strings.Contains] and [strings.Split] with the one-byte
    separator ["?"] only; both are embedded for a one-byte separator.  A Go
    string is a sequence of bytes, as a Rocq [string] is. *)

Fixpoint strings_Contains (s : string) (substr : ascii) : bool :=
  match s with
  | EmptyString => false
  | String c s' => if Ascii.eqb c substr then true else strings_Contains s' substr
  end.

(** [strings.Split(s, sep)]: the substrings of [s] between the occurrences of
    [sep]; a string without [sep] (the empty one too) gives the one-element
    slice holding [s]. *)
Fixpoint strings_Split (s : string) (sep : ascii) : list string :=
  match s with
  | EmptyString => [EmptyString]
  | String c s' =>
      if Ascii.eqb c sep then EmptyString :: strings_Split s' sep
      else match strings_Split s' sep with
           | x :: xs => String c x :: xs
           | [] => [String c EmptyString]
           end
  end.

(** ** Constants of [server.go] *)

Definition Method := string.

Definition ANY : Method := "".
Definition CONNECT : Method := "CONNECT".
Definition DELETE : Method := "DELETE".
Definition GET : Method := "GET".
Definition HEAD : Method := "HEAD".
Definition OPTIONS : Method := "OPTIONS".
Definition PATCH : Method := "PATCH".
Definition POST : Method := "POST".
Definition PUT : Method := "PUT".
Definition TRACE : Method := "TRACE".

Definition AnyPath : string := "!AnyPath!".

(** [http.StatusInternalServerError] and friends, from [net/http]. *)
Definition StatusInternalServerError : Z := 500.
Definition StatusBadRequest : Z := 400.
Definition StatusOK : Z := 200.

(** ** Values of [net/http] and of [testing] *)

(** [*http.Response]: the fields the package sets.  A [nil] response is
    [None] of [option Response]. *)
Record Response := mkResponse {
  StatusCode : Z;
  Body : string;
  Header : gmap string (list string)
}.

(** A Go [error] made by [fmt.Errorf] or [errors.New]: its message. *)
Inductive error := errorString (msg : string).

Definition error_Error (e : error) : string :=
  match e with errorString msg => msg end.

(** Pointers are locations of a store; a location outside the domain of the
    store is a pointer that cannot be dereferenced ([nil]). *)
Definition loc := nat.

(** [testing.T], as far as the package drives it: the arguments of the
    [Errorf] calls made so far, oldest first, and the failed flag that
    [Errorf] sets. *)
Record testing_T := mkT {
  T_failed : bool;
  T_errorfs : list string
}.

(** [t.Errorf(format)] on the test behind pointer [t]. *)
Definition T_Errorf (t : loc) (format : string) (ts : gmap loc testing_T)
  : option (gmap loc testing_T) :=
  match ts !! t with
  | Some T => Some (<[t := {| T_failed := true; T_errorfs := T_errorfs T ++ [format] |}]> ts)
  | None => None
  end.

(** A concrete [url.URL] for the examples: scheme, host, path, query and
    fragment.  [url_String] renders it in the general form
    [scheme://host/path?query#fragment], as the [String] method of [net/url]
    does for a URL without user information and without opaque part whose
    components need no percent-encoding. *)
Record url := mkUrl {
  Scheme : string;
  Host : string;
  Path : string;
  RawQuery : string;
  Fragment : string
}.

Definition url_String (u : url) : string :=
  (if bool_decide (Scheme u ≠ "") then Scheme u +:+ ":" else "") +:+
  (if bool_decide (Scheme u ≠ "" ∨ Host u ≠ "")
      && bool_decide (Host u ≠ "" ∨ Path u ≠ "")
   then "//" +:+ Host u else "") +:+
  (match Path u with
   | String c _ =>
       if bool_decide (c ≠ "/"%char) && bool_decide (Host u ≠ "") then "/" else ""
   | EmptyString => ""
   end) +:+
  Path u +:+
  (if bool_decide (RawQuery u ≠ "") then "?" +:+ RawQuery u else "") +:+
  (if bool_decide (Fragment u ≠ "") then "#" +:+ Fragment u else "").

Section Httpt.

(** [net/url] is Go's standard library: the package reads a request's URL
    through [req.URL.String()] alone, so the development is parametric in the
    type of URLs and in that method. *)
Context {URL : Type} (URL_String : URL → string).

(** [*http.Request]: the two fields the package reads. *)
Record Request := mkRequest {
  Request_Method : string;
  Request_URL : URL
}.

(** The result pair of a round trip: a response pointer and an error. *)
Definition result : Type := option Response * option error.

(** [RoundTripFunc]: a Go function value, [None] when it is [nil].  Calling
    it may report to the tests it closes over; [None] as outcome is a
    panic. *)
Definition RoundTripFunc : Type :=
  option (Request → gmap loc testing_T → option (result * gmap loc testing_T)).

Record tripEntry := mkTripEntry {
  tripEntry_method : Method;
  tripEntry_path : string;
  tripEntry_trip : RoundTripFunc
}.

Record tripQueue := mkTripQueue {
  queue : list tripEntry
}.

(** ** Program state

    The [tripQueue] objects live in a store, since pushers alias the queue of
    their server through [engine *tripQueue]; the tests are the world that
    round trip functions act on. *)
Record state := mkState {
  queues : gmap loc tripQueue;
  tests : gmap loc testing_T
}.

(** State and failure: [None] is a run-time panic. *)
Definition M (A : Type) : Type := state → option (A * state).

Definition ret {A} (a : A) : M A := fun σ => Some (a, σ).

Definition bind {A B} (m : M A) (k : A → M B) : M B :=
  fun σ => match m σ with
           | Some (a, σ') => k a σ'
           | None => None
           end.

Definition load (q : loc) : M tripQueue :=
  fun σ => match queues σ !! q with
           | Some Q => Some (Q, σ)
           | None => None
           end.

Definition store (q : loc) (Q : tripQueue) : M unit :=
  fun σ => match queues σ !! q with
           | Some _ => Some (tt, {| queues := <[q := Q]> (queues σ); tests := tests σ |})
           | None => None
           end.

(** [&tripQueue{}]: a new queue object at a fresh location. *)
Definition alloc (Q : tripQueue) : M loc :=
  fun σ => let q := fresh (dom (queues σ)) in
           Some (q, {| queues := <[q := Q]> (queues σ); tests := tests σ |}).

(** Calling a function value [r(req)]. *)
Definition call (r : RoundTripFunc) (req : Request) : M result :=
  fun σ => match r with
           | Some f =>
               match f req (tests σ) with
               | Some (res, ts) => Some (res, {| queues := queues σ; tests := ts |})
               | None => None
               end
           | None => None
           end.

#[global] Instance M_ret : MRet M := @ret.
#[global] Instance M_bind : MBind M := fun A B k m => bind m k.

(** ** The queue of round trips *)

(** [func (q *tripQueue) push(method Method, path string, r RoundTripFunc)] *)
Definition tripQueue_push (q : loc) (method : Method) (path : string)
    (r : RoundTripFunc) : M unit :=
  Q ← load q;
  store q {| queue := queue Q ++ [ {| tripEntry_method := method;
                                      tripEntry_path := path;
                                      tripEntry_trip := r |} ] |}.

(** [func (q *tripQueue) reset()] *)
Definition tripQueue_reset (q : loc) : M unit :=
  store q {| queue := [] |}.

(** The [for i, e := range q.queue] loop of [pop], from index [i] on: the
    index and the entry at which the loop reaches its [return], if it does.
    The two guards are the two [continue] statements. *)
Fixpoint pop_range (method : Method) (path : string) (i : nat)
    (es : list tripEntry) : option (nat * tripEntry) :=
  match es with
  | [] => None
  | e :: es' =>
      if bool_decide (tripEntry_method e ≠ method)
         && bool_decide (tripEntry_method e ≠ ANY)
      then pop_range method path (S i) es'
      else if bool_decide (tripEntry_path e ≠ path)
              && bool_decide (tripEntry_path e ≠ AnyPath)
      then pop_range method path (S i) es'
      else Some (i, e)
  end.

(** [func (q *tripQueue) pop(method Method, path string) (RoundTripFunc, bool)]:
    at the match, [q.queue = append(q.queue[:i], q.queue[i+1:]...)]. *)
Definition tripQueue_pop (q : loc) (method : Method) (path : string)
    : M (RoundTripFunc * bool) :=
  Q ← load q;
  match pop_range method path 0 (queue Q) with
  | Some (i, e) =>
      store q {| queue := take i (queue Q) ++ drop (S i) (queue Q) |} ;;
      mret (tripEntry_trip e, true)
  | None => mret (None, false)
  end.

(** [func getPathOnly(req *http.Request) string] *)
Definition getPathOnly (req : Request) : string :=
  let path := URL_String (Request_URL req) in
  if strings_Contains path "?"%char
  then default EmptyString (strings_Split path "?"%char !! 0%nat)
  else path.

(** ** Pushers, builders and the server *)

Record tripPusher := mkTripPusher {
  tripPusher_engine : loc;
  tripPusher_method : Method;
  tripPusher_path : string
}.

Definition newTripPusher (engine : loc) (method : Method) (path : string)
    : tripPusher :=
  {| tripPusher_engine := engine;
     tripPusher_method := method;
     tripPusher_path := path |}.

(** [func (t *tripPusher) Push(f RoundTripFunc)] *)
Definition tripPusher_Push (t : tripPusher) (f : RoundTripFunc) : M unit :=
  tripQueue_push (tripPusher_engine t) (tripPusher_method t) (tripPusher_path t) f.

Record tripBuilder := mkTripBuilder {
  tripBuilder_tripPusher : tripPusher
}.

Definition newTripBuilder : M tripBuilder :=
  q ← alloc {| queue := [] |};
  mret {| tripBuilder_tripPusher := newTripPusher q ANY AnyPath |}.

(** [func (t *tripBuilder) On(method Method, path string) *tripPusher];
    [t.engine] is the engine of the embedded pusher. *)
Definition tripBuilder_On (t : tripBuilder) (method : Method) (path : string)
    : tripPusher :=
  newTripPusher (tripPusher_engine (tripBuilder_tripPusher t)) method path.

Record Server := mkServer {
  Server_tripBuilder : tripBuilder;
  DefaultRoundTrip : RoundTripFunc
}.

(** The members a [Server] gets from its embedded [*tripBuilder]. *)
Definition Server_engine (s : Server) : loc :=
  tripPusher_engine (tripBuilder_tripPusher (Server_tripBuilder s)).

Definition Server_Push (s : Server) (f : RoundTripFunc) : M unit :=
  tripPusher_Push (tripBuilder_tripPusher (Server_tripBuilder s)) f.

Definition Server_On (s : Server) (method : Method) (path : string) : tripPusher :=
  tripBuilder_On (Server_tripBuilder s) method path.

(** [func NotMockedFunc(t *testing.T)]: the returned closure; [Sprintf]
    with two [%s] verbs splices the two strings into the format. *)
Definition NotMockedFunc (t : loc) : RoundTripFunc :=
  Some (fun r ts =>
    let msg := "httpt.Server: RoundTripFunc not mocked for this request "
               +:+ Request_Method r +:+ ":" +:+ getPathOnly r in
    match T_Errorf t msg ts with
    | Some ts' =>
        Some ((Some {| StatusCode := StatusInternalServerError;
                       Body := msg;
                       Header := ∅ |}, None), ts')
    | None => None
    end).

Definition NewServer (t : loc) : M Server :=
  b ← newTripBuilder;
  mret {| Server_tripBuilder := b; DefaultRoundTrip := NotMockedFunc t |}.

Definition NewRawServer : M Server :=
  b ← newTripBuilder;
  mret {| Server_tripBuilder := b; DefaultRoundTrip := None |}.

(** [func (s *Server) Reset()] *)
Definition Server_Reset (s : Server) : M unit :=
  tripQueue_reset (Server_engine s).

(** [func (s *Server) Len() int] *)
Definition Server_Len (s : Server) : M nat :=
  Q ← load (Server_engine s);
  mret (length (queue Q)).

(** [func (s *Server) StillExpectedRTs() []string] *)
Definition Server_StillExpectedRTs (s : Server) : M (list string) :=
  Q ← load (Server_engine s);
  mret (map (fun rt => "[" +:+ tripEntry_method rt +:+ "]" +:+ tripEntry_path rt)
           (queue Q)).

(** [func FailureFunc(err error)]: the returned closure. *)
Definition FailureFunc (err : option error) : RoundTripFunc :=
  Some (fun _ ts => Some ((None, err), ts)).

(** ** The transport *)

Record transport := mkTransport {
  transport_s : Server
}.

(** [func (s *Server) HTTPClient() *http.Client]: the client is its
    transport. *)
Definition Server_HTTPClient (s : Server) : transport :=
  {| transport_s := s |}.

(** [func (t *transport) RoundTrip(req *http.Request)] *)
Definition RoundTrip (t : transport) (req : Request) : M result :=
  let method := Request_Method req in
  let path := getPathOnly req in
  rok ← tripQueue_pop (Server_engine (transport_s t)) method path;
  let r := rok.1 in
  let ok : bool := rok.2 in
  if ok then call r req
  else
    match DefaultRoundTrip (transport_s t) with
    | None =>
        mret (None, Some (errorString
               ("httpt.Server request not mocked for this request "
                +:+ method +:+ ":" +:+ path)))
    | Some _ => call (DefaultRoundTrip (transport_s t)) req
    end.

(** ** Package [rt] *)

(** [func StringResponseFunc(code int, msg string)]: the returned closure. *)
Definition StringResponseFunc (code : Z) (msg : string) : RoundTripFunc :=
  Some (fun _ ts =>
    Some ((Some {| StatusCode := code; Body := msg; Header := ∅ |}, None), ts)).

(** [func JSONResponseFunc(code int, json []byte)]: the returned closure. *)
Definition JSONResponseFunc (code : Z) (json : string) : RoundTripFunc :=
  Some (fun _ ts =>
    Some ((Some {| StatusCode := code; Body := json;
                   Header := {[ "Content-Type" := ["application/json"] ]} |},
           None), ts)).

(** ** The words of the specification *)

(** An entry matches an incoming (method, path) when its method is [ANY] or
    the incoming method, and its path is [AnyPath] or the incoming path. *)
Definition matches (e : tripEntry) (method : Method) (path : string) : Prop :=
  (tripEntry_method e = ANY ∨ tripEntry_method e = method) ∧
  (tripEntry_path e = AnyPath ∨ tripEntry_path e = path).

(** A client of the queue: a push, or a consuming lookup. *)
Inductive op :=
  | OpPush (method : Method) (path : string) (r : RoundTripFunc)
  | OpPop (method : Method) (path : string).

(** The number of pushes among [ops]. *)
Fixpoint pushes (ops : list op) : nat :=
  match ops with
  | [] => 0
  | OpPush _ _ _ :: ops' => S (pushes ops')
  | OpPop _ _ :: ops' => pushes ops'
  end.

(** Runs [ops] in order on the queue behind [q] and counts the lookups that
    found an entry. *)
Fixpoint run_ops (q : loc) (ops : list op) : M nat :=
  match ops with
  | [] => mret 0%nat
  | OpPush method path r :: ops' =>
      tripQueue_push q method path r;;
      run_ops q ops'
  | OpPop method path :: ops' =>
      rok ← tripQueue_pop q method path;
      k ← run_ops q ops';
      mret (if (rok.2 : bool) then S k else k)
  end.

(** Pushes the entries [es] in order through [On(method, path).Push(r)]. *)
Fixpoint push_all (s : Server) (es : list tripEntry) : M unit :=
  match es with
  | [] => mret tt
  | e :: es' =>
      tripPusher_Push (Server_On s (tripEntry_method e) (tripEntry_path e))
                      (tripEntry_trip e);;
      push_all s es'
  end.

(** Sends the requests [reqs] in order through [RoundTrip] and collects the
    results. *)
Fixpoint dispatch_all (t : transport) (reqs : list Request) : M (list result) :=
  match reqs with
  | [] => mret []
  | req :: reqs' =>
      res ← RoundTrip t req;
      rest ← dispatch_all t reqs';
      mret (res :: rest)
  end.

(** Calls the round trip functions of [es] in order on [req], threading the
    tests through; [None] as soon as one of them is [nil] or panics. *)
Fixpoint calls (es : list tripEntry) (req : Request) (ts : gmap loc testing_T)
    : option (list result * gmap loc testing_T) :=
  match es with
  | [] => Some ([], ts)
  | e :: es' =>
      match tripEntry_trip e with
      | Some f =>
          match f req ts with
          | Some (res, ts1) =>
              match calls es' req ts1 with
              | Some (rs, ts2) => Some (res :: rs, ts2)
              | None => None
              end
          | None => None
          end
      | None => None
      end
  end.

(** The round trip functions that the package and [rt] build themselves:
    the closures of [StringResponseFunc], [JSONResponseFunc], [FailureFunc]
    and [NotMockedFunc].  None of them holds a server, so calling one leaves
    every queue as it is; a closure of the user's may push or reset from
    inside the call. *)
Inductive package_func : RoundTripFunc → Prop :=
  | package_StringResponseFunc code msg :
      package_func (StringResponseFunc code msg)
  | package_JSONResponseFunc code json :
      package_func (JSONResponseFunc code json)
  | package_FailureFunc err :
      package_func (FailureFunc err)
  | package_NotMockedFunc t :
      package_func (NotMockedFunc t).

(** The line of [StillExpectedRTs] for an entry. *)
Definition describe (e : tripEntry) : string :=
  "[" +:+ tripEntry_method e +:+ "]" +:+ tripEntry_path e.

#[global] Instance matches_dec e method path : Decision (matches e method path).
Proof. unfold matches. apply _. Defined.

(** ** Properties of the string helpers *)


Lemma strings_Split_lookup_0 s sep : is_Some (strings_Split s sep !! 0%nat).
Proof.
  destruct s as [|c s]; simpl; [eauto|].
  destruct (Ascii.eqb c sep); [eauto|].
  destruct (strings_Split s sep); eauto.
Qed.

(** ** Properties of the loop of [pop] *)

(** The two [continue] guards of the loop, read together. *)
Lemma pop_range_cons method path i e es :
  pop_range method path i (e :: es) =
  if decide (matches e method path) then Some (i, e)
  else pop_range method path (S i) es.
Proof.
  simpl. unfold matches. rewrite !bool_decide_not.
  repeat case_bool_decide; simpl; case_decide; try reflexivity; tauto.
Qed.

Lemma pop_range_Some method path i es j e :
  pop_range method path i es = Some (j, e) →
  ∃ l1 l2, es = l1 ++ e :: l2 ∧ j = (i + length l1)%nat ∧
           Forall (λ e', ¬ matches e' method path) l1 ∧ matches e method path.
Proof.
  revert i. induction es as [|e0 es IH]; intros i; [discriminate|].
  rewrite pop_range_cons. case_decide as Hm.
  - intros [= <- <-]. exists [], es.
    split; [done|]. split; [simpl; lia|]. split; [constructor|done].
  - intros Hr. destruct (IH _ Hr) as (l1 & l2 & -> & -> & Hl1 & He).
    exists (e0 :: l1), l2.
    split; [done|]. split; [simpl; lia|]. split; [by constructor|done].
Qed.

Lemma pop_range_None method path i es :
  pop_range method path i es = None →
  Forall (λ e, ¬ matches e method path) es.
Proof.
  revert i. induction es as [|e0 es IH]; intros i; [constructor|].
  rewrite pop_range_cons. case_decide as Hm; [discriminate|].
  intros Hr. constructor; eauto.
Qed.

Lemma pop_range_no_match method path i es :
  Forall (λ e, ¬ matches e method path) es →
  pop_range method path i es = None.
Proof.
  intros H. revert i. induction H as [|e es He _ IH]; intros i; [reflexivity|].
  rewrite pop_range_cons. case_decide; [contradiction|]. apply IH.
Qed.

Lemma pop_range_first method path i l1 e l2 :
  Forall (λ e', ¬ matches e' method path) l1 → matches e method path →
  pop_range method path i (l1 ++ e :: l2) = Some ((i + length l1)%nat, e).
Proof.
  intros H He. revert i. induction H as [|e0 l1 He0 _ IH]; intros i.
  - simpl app. rewrite pop_range_cons. case_decide; [|contradiction].
    simpl. do 2 f_equal. lia.
  - simpl app. rewrite pop_range_cons. case_decide; [contradiction|].
    rewrite IH. simpl. do 2 f_equal. lia.
Qed.

(** Standing before [e] at index [i], the loop returns there exactly when
    [e] matches: a later entry has a larger index. *)
Lemma pop_range_head_iff method path i e es :
  pop_range method path i (e :: es) = Some (i, e) ↔ matches e method path.
Proof.
  rewrite pop_range_cons. case_decide as Hm; [done|].
  split; [|done]. intros Hr.
  apply pop_range_Some in Hr as (l1 & l2 & _ & Hi & _). lia.
Qed.

(** [append(q[:i], q[i+1:]...)] at the index of [e] drops [e] alone. *)
Lemma remove_at_middle {A} (l1 : list A) e l2 :
  take (length l1) (l1 ++ e :: l2) ++ drop (S (length l1)) (l1 ++ e :: l2)
  = l1 ++ l2.
Proof.
  rewrite take_app_length. f_equal.
  induction l1 as [|a l1 IH]; simpl; [by rewrite drop_0|exact IH].
Qed.

(** ** The monad, run *)

Ltac run_M :=
  unfold mbind, M_bind, bind, mret, M_ret, ret, load, store, call; simpl.

Lemma tripQueue_pop_run q method path σ Q :
  queues σ !! q = Some Q →
  tripQueue_pop q method path σ =
  match pop_range method path 0 (queue Q) with
  | Some (i, e) =>
      Some ((tripEntry_trip e, true),
            {| queues := <[q := {| queue := take i (queue Q) ++ drop (S i) (queue Q) |}]> (queues σ);
               tests := tests σ |})
  | None => Some ((None, false), σ)
  end.
Proof.
  intros Hq. unfold tripQueue_pop. run_M. rewrite Hq.
  destruct (pop_range method path 0 (queue Q)) as [[i e]|]; [|reflexivity].
  run_M. by rewrite Hq.
Qed.

(** The two outcomes of [pop]. *)
Lemma tripQueue_pop_cases q method path σ Q :
  queues σ !! q = Some Q →
  (∃ l1 e l2,
      queue Q = l1 ++ e :: l2 ∧
      Forall (λ e', ¬ matches e' method path) l1 ∧
      matches e method path ∧
      tripQueue_pop q method path σ =
        Some ((tripEntry_trip e, true),
              {| queues := <[q := {| queue := l1 ++ l2 |}]> (queues σ);
                 tests := tests σ |}))
  ∨ (Forall (λ e, ¬ matches e method path) (queue Q) ∧
     tripQueue_pop q method path σ = Some ((None, false), σ)).
Proof.
  intros Hq. rewrite (tripQueue_pop_run _ _ _ _ _ Hq).
  destruct (pop_range method path 0 (queue Q)) as [[i e]|] eqn:Hr.
  - left. apply pop_range_Some in Hr as (l1 & l2 & HQ & -> & Hl1 & He).
    exists l1, e, l2. split; [done|]. split; [done|]. split; [done|].
    rewrite HQ. simpl. by rewrite remove_at_middle.
  - right. split; [|reflexivity]. by eapply pop_range_None.
Qed.

Lemma tripQueue_pop_match q method path σ Q l1 e l2 :
  queues σ !! q = Some Q →
  queue Q = l1 ++ e :: l2 →
  Forall (λ e', ¬ matches e' method path) l1 →
  matches e method path →
  tripQueue_pop q method path σ =
    Some ((tripEntry_trip e, true),
          {| queues := <[q := {| queue := l1 ++ l2 |}]> (queues σ);
             tests := tests σ |}).
Proof.
  intros Hq HQ Hl1 He. rewrite (tripQueue_pop_run _ _ _ _ _ Hq), HQ.
  rewrite pop_range_first by done. simpl. by rewrite remove_at_middle.
Qed.

Lemma tripQueue_pop_no_match q method path σ Q :
  queues σ !! q = Some Q →
  Forall (λ e, ¬ matches e method path) (queue Q) →
  tripQueue_pop q method path σ = Some ((None, false), σ).
Proof.
  intros Hq HQ. rewrite (tripQueue_pop_run _ _ _ _ _ Hq).
  by rewrite pop_range_no_match.
Qed.

Lemma tripQueue_push_run q method path r σ Q :
  queues σ !! q = Some Q →
  tripQueue_push q method path r σ =
    Some (tt, {| queues := <[q := {| queue := queue Q ++
                                 [ {| tripEntry_method := method;
                                      tripEntry_path := path;
                                      tripEntry_trip := r |} ] |}]> (queues σ);
                 tests := tests σ |}).
Proof.
  intros Hq. unfold tripQueue_push. run_M. rewrite Hq. simpl. by rewrite Hq.
Qed.

Lemma Server_Len_run s σ Q :
  queues σ !! Server_engine s = Some Q →
  Server_Len s σ = Some (length (queue Q), σ).
Proof. intros Hq. unfold Server_Len. run_M. by rewrite Hq. Qed.

(** Pushes and lookups never panic on an allocated queue, and the length of
    the queue plus the number of successful lookups is the initial length
    plus the number of pushes. *)
Lemma run_ops_length q ops : ∀ σ Q,
  queues σ !! q = Some Q →
  ∃ K σ' Q',
    run_ops q ops σ = Some (K, σ') ∧ queues σ' !! q = Some Q' ∧
    (length (queue Q') + K = length (queue Q) + pushes ops)%nat.
Proof.
  induction ops as [|[method path r|method path] ops IH]; intros σ Q Hq.
  - exists 0%nat, σ, Q. split; [done|]. split; [done|]. simpl; lia.
  - simpl run_ops. unfold mbind, M_bind, bind.
    rewrite (tripQueue_push_run _ _ _ _ _ _ Hq).
    match goal with |- context [run_ops q ops ?σ1] =>
      destruct (IH σ1 {| queue := queue Q ++
                           [ {| tripEntry_method := method;
                                tripEntry_path := path;
                                tripEntry_trip := r |} ] |})
        as (K & σ' & Q' & Hrun & Hq' & Hlen) end.
    { simpl. apply lookup_insert_eq. }
    exists K, σ', Q'. split; [done|]. split; [done|].
    revert Hlen. simpl. rewrite length_app. simpl. lia.
  - simpl run_ops. unfold mbind, M_bind, bind.
    destruct (tripQueue_pop_cases q method path σ Q Hq)
      as [(l1 & e & l2 & HQ & _ & _ & ->)|[_ ->]].
    + match goal with |- context [run_ops q ops ?σ1] =>
        destruct (IH σ1 {| queue := l1 ++ l2 |})
          as (K & σ' & Q' & Hrun & Hq' & Hlen) end.
      { simpl. apply lookup_insert_eq. }
      rewrite Hrun. exists (S K), σ', Q'. split; [done|]. split; [done|].
      revert Hlen. rewrite HQ. simpl.
      rewrite !length_app. simpl. lia.
    + destruct (IH σ Q Hq) as (K & σ' & Q' & Hrun & Hq' & Hlen).
      rewrite Hrun. exists K, σ', Q'. split; [done|]. split; [done|].
      revert Hlen. simpl. lia.
Qed.

Lemma newTripBuilder_run σ :
  newTripBuilder σ =
    Some ({| tripBuilder_tripPusher :=
               newTripPusher (fresh (dom (queues σ))) ANY AnyPath |},
          {| queues := <[fresh (dom (queues σ)) := {| queue := [] |}]> (queues σ);
             tests := tests σ |}).
Proof. reflexivity. Qed.

Lemma NewServer_run t σ :
  NewServer t σ =
    Some ({| Server_tripBuilder :=
               {| tripBuilder_tripPusher :=
                    newTripPusher (fresh (dom (queues σ))) ANY AnyPath |};
             DefaultRoundTrip := NotMockedFunc t |},
          {| queues := <[fresh (dom (queues σ)) := {| queue := [] |}]> (queues σ);
             tests := tests σ |}).
Proof. reflexivity. Qed.

Lemma NewRawServer_run σ :
  NewRawServer σ =
    Some ({| Server_tripBuilder :=
               {| tripBuilder_tripPusher :=
                    newTripPusher (fresh (dom (queues σ))) ANY AnyPath |};
             DefaultRoundTrip := None |},
          {| queues := <[fresh (dom (queues σ)) := {| queue := [] |}]> (queues σ);
             tests := tests σ |}).
Proof. reflexivity. Qed.

(** A miss of the lookup hands the request to the fallback. *)
Lemma RoundTrip_no_match t req σ Q :
  queues σ !! Server_engine (transport_s t) = Some Q →
  Forall (λ e, ¬ matches e (Request_Method req) (getPathOnly req)) (queue Q) →
  RoundTrip t req σ =
    match DefaultRoundTrip (transport_s t) with
    | None =>
        Some ((None, Some (errorString
                 ("httpt.Server request not mocked for this request "
                  +:+ Request_Method req +:+ ":" +:+ getPathOnly req))), σ)
    | Some _ => call (DefaultRoundTrip (transport_s t)) req σ
    end.
Proof.
  intros Hq HQ. unfold RoundTrip. unfold mbind, M_bind, bind.
  rewrite (tripQueue_pop_no_match _ _ _ _ _ Hq HQ). simpl.
  by destruct (DefaultRoundTrip (transport_s t)).
Qed.

(** A hit calls the function of the entry on the state left by the removal. *)
Lemma RoundTrip_match t req σ Q l1 e l2 :
  queues σ !! Server_engine (transport_s t) = Some Q →
  queue Q = l1 ++ e :: l2 →
  Forall (λ e', ¬ matches e' (Request_Method req) (getPathOnly req)) l1 →
  matches e (Request_Method req) (getPathOnly req) →
  RoundTrip t req σ =
    call (tripEntry_trip e) req
         {| queues := <[Server_engine (transport_s t) := {| queue := l1 ++ l2 |}]>
                        (queues σ);
            tests := tests σ |}.
Proof.
  intros Hq HQ Hl1 He. unfold RoundTrip. unfold mbind, M_bind, bind.
  by rewrite (tripQueue_pop_match _ _ _ _ _ _ _ _ Hq HQ Hl1 He).
Qed.

Lemma push_all_run s es : ∀ σ Q,
  queues σ !! Server_engine s = Some Q →
  ∃ σ', push_all s es σ = Some (tt, σ') ∧
        queues σ' !! Server_engine s = Some {| queue := queue Q ++ es |} ∧
        tests σ' = tests σ.
Proof.
  induction es as [|e es IH]; intros σ Q Hq.
  - exists σ. split; [done|]. rewrite app_nil_r. by destruct Q.
  - simpl push_all. unfold mbind, M_bind, bind.
    unfold tripPusher_Push, Server_On, tripBuilder_On. simpl.
    fold (Server_engine s). rewrite (tripQueue_push_run _ _ _ _ _ _ Hq).
    match goal with |- context [push_all s es ?σ1] =>
      destruct (IH σ1 {| queue := queue Q ++ [e] |})
        as (σ' & Hrun & Hq' & Hts) end.
    { simpl. rewrite lookup_insert_eq. by destruct e. }
    exists σ'. split; [done|]. split; [|done].
    rewrite Hq'. simpl. by rewrite <- app_assoc.
Qed.

(** The part of a string in front of its first ["?"]. *)
Lemma strings_Split_head s :
  ∃ x xs, strings_Split s "?" = x :: xs ∧
          strings_Contains x "?" = false ∧
          if strings_Contains s "?"
          then ∃ rest, s = x +:+ String "?" rest
          else s = x.
Proof.
  induction s as [|c s (x & xs & Hs & Hx & Hrest)]; simpl.
  - by exists EmptyString, [].
  - destruct (Ascii.eqb c "?") eqn:Hc.
    + apply Ascii.eqb_eq in Hc as ->.
      exists EmptyString, (strings_Split s "?"). split; [done|]. split; [done|].
      by exists s.
    + rewrite Hs. exists (String c x), xs. split; [done|].
      split; [simpl; by rewrite Hc|].
      destruct (strings_Contains s "?").
      * destruct Hrest as [rest ->]. by exists rest.
      * by rewrite Hrest.
Qed.

(** [getPathOnly] returns the rendered URL up to its first ["?"]. *)
Lemma getPathOnly_strips_query req :
  strings_Contains (getPathOnly req) "?" = false ∧
  (URL_String (Request_URL req) = getPathOnly req ∨
   ∃ rest, URL_String (Request_URL req) = getPathOnly req +:+ String "?" rest).
Proof.
  unfold getPathOnly.
  destruct (strings_Split_head (URL_String (Request_URL req)))
    as (x & xs & Hs & Hx & Hrest).
  rewrite Hs. simpl.
  destruct (strings_Contains (URL_String (Request_URL req)) "?") eqn:Hc.
  - split; [done|]. by right.
  - split; [done|]. by left.
Qed.

(** ** The consuming lookup *)

(** C1. [tripQueue.pop] scans the queue from its head and removes exactly the
    first entry that matches the incoming method and path, returning that
    entry's round trip function with [true]; the entries before and behind it
    stay, in their order.  When no entry matches it returns [nil, false] and
    the state is the one it started from. *)
Theorem pop_removes_first_match q method path σ Q :
  queues σ !! q = Some Q →
  (∃ l1 e l2,
      queue Q = l1 ++ e :: l2 ∧
      Forall (λ e', ¬ matches e' method path) l1 ∧
      matches e method path ∧
      tripQueue_pop q method path σ =
        Some ((tripEntry_trip e, true),
              {| queues := <[q := {| queue := l1 ++ l2 |}]> (queues σ);
                 tests := tests σ |}))
  ∨ (Forall (λ e, ¬ matches e method path) (queue Q) ∧
     tripQueue_pop q method path σ = Some ((None, false), σ)).
Proof. apply tripQueue_pop_cases. Qed.

(** The lookup of [RoundTrip], read at one entry: the loop of [pop], standing
    before entry [e] at index [i], returns there if and only if the method of
    [e] is [ANY] or the request's method and the path of [e] is [AnyPath] or
    the string that [getPathOnly] returns for the request, both compared as
    strings. *)
Lemma pop_takes_entry_iff (e : tripEntry) (r : Request) (i : nat)
    (es : list tripEntry) :
  let method := Request_Method r in
  let path := getPathOnly r in
  (pop_range method path i (e :: es) = Some (i, e) ↔
     (tripEntry_method e = ANY ∨ tripEntry_method e = method) ∧
     (tripEntry_path e = AnyPath ∨ tripEntry_path e = path))
  ∧ (tripEntry_method e ≠ ANY → tripEntry_path e ≠ AnyPath →
     (pop_range method path i (e :: es) = Some (i, e) ↔
        Request_Method r = tripEntry_method e ∧
        getPathOnly r = tripEntry_path e)).
Proof.
  intros method path. split; [apply pop_range_head_iff|].
  intros HM HX. rewrite pop_range_head_iff.
  unfold matches, method, path. intuition congruence.
Qed.

(** C10. [ANY] is the empty string: pushing through [On] with the literal
    empty method is pushing with [ANY], and such an entry is taken for a
    request of any method as soon as the path agrees.  A request whose method
    is empty is taken by an entry only if the entry's method is [ANY]; the
    loop skips every entry with another method. *)
Theorem any_is_empty_method (s : Server) (path : string) (f : RoundTripFunc) :
  ANY = EmptyString
  ∧ Server_On s EmptyString path = Server_On s ANY path
  ∧ tripPusher_Push (Server_On s EmptyString path) f
    = tripPusher_Push (Server_On s ANY path) f
  ∧ (∀ method path' i es,
       let e := {| tripEntry_method := EmptyString; tripEntry_path := path;
                   tripEntry_trip := f |} in
       pop_range method path' i (e :: es) = Some (i, e)
       ↔ (path = AnyPath ∨ path = path'))
  ∧ (∀ e path' i es,
       (pop_range EmptyString path' i (e :: es) = Some (i, e)
        → tripEntry_method e = ANY)
       ∧ (tripEntry_method e ≠ EmptyString →
          pop_range EmptyString path' i (e :: es)
          = pop_range EmptyString path' (S i) es)).
Proof.
  split; [reflexivity|]. split; [reflexivity|]. split; [reflexivity|].
  split.
  - intros method path' i es e. rewrite pop_range_head_iff.
    unfold matches, e, ANY. simpl. intuition congruence.
  - intros e path' i es. split.
    + rewrite pop_range_head_iff. unfold matches, ANY. intuition congruence.
    + intros Hne. rewrite pop_range_cons. case_decide as Hm; [|done].
      unfold matches, ANY in Hm. intuition congruence.
Qed.

(** ** The length of the queue *)

(** C3. From an empty queue, after any interleaving of pushes and consuming
    lookups, [Len] is the number of pushes minus the number of lookups that
    found an entry, and that number is at most the number of pushes.  On any
    queue a push makes [Len] one larger, a lookup that finds an entry makes
    it one smaller, and a lookup that finds none leaves it as it is. *)
Theorem len_is_pushes_minus_lookups (s : Server) (σ : state) (Q : tripQueue) :
  queues σ !! Server_engine s = Some Q →
  (queue Q = [] →
   ∀ ops, ∃ K σ',
     run_ops (Server_engine s) ops σ = Some (K, σ') ∧
     K ≤ pushes ops ∧
     Server_Len s σ' = Some ((pushes ops - K)%nat, σ'))
  ∧ Server_Len s σ = Some (length (queue Q), σ)
  ∧ (∀ method path r, ∃ σ',
       tripQueue_push (Server_engine s) method path r σ = Some (tt, σ') ∧
       Server_Len s σ' = Some (S (length (queue Q)), σ'))
  ∧ (∀ method path, ∃ r (ok : bool) σ',
       tripQueue_pop (Server_engine s) method path σ = Some ((r, ok), σ') ∧
       if ok
       then 1 ≤ length (queue Q) ∧
            Server_Len s σ' = Some ((length (queue Q) - 1)%nat, σ')
       else Server_Len s σ' = Some (length (queue Q), σ')).
Proof.
  intros Hq. split; [|split; [|split]].
  - intros HQ ops.
    destruct (run_ops_length (Server_engine s) ops σ Q Hq)
      as (K & σ' & Q' & Hrun & Hq' & Hlen).
    rewrite HQ in Hlen. simpl in Hlen.
    exists K, σ'. split; [done|]. split; [lia|].
    rewrite (Server_Len_run _ _ _ Hq'). do 2 f_equal. lia.
  - by apply Server_Len_run.
  - intros method path r. eexists. split; [by apply tripQueue_push_run|].
    erewrite Server_Len_run by (simpl; apply lookup_insert_eq).
    simpl. rewrite length_app. simpl. do 2 f_equal. lia.
  - intros method path.
    destruct (tripQueue_pop_cases (Server_engine s) method path σ Q Hq)
      as [(l1 & e & l2 & HQ & _ & _ & Hpop)|[_ Hpop]].
    + eexists _, true, _. split; [exact Hpop|].
      rewrite HQ, length_app. simpl. split; [lia|].
      erewrite Server_Len_run by (simpl; apply lookup_insert_eq).
      simpl. rewrite length_app. do 2 f_equal. lia.
    + eexists _, false, _. split; [exact Hpop|]. by apply Server_Len_run.
Qed.

(** ** Dispatch *)


(** C6. On a server made by [NewServer(t)], a request that no queued entry
    matches makes [RoundTrip] call [t.Errorf] once, with the message naming
    the request, and return a response with status 500 and a [nil] error; the
    queue, and so [Len], is as before. *)
Theorem roundtrip_unmatched_reports_to_test (t : loc) (σ0 : state) (s : Server)
    (σ1 : state) (req : Request) (σ : state) (Q : tripQueue) (T : testing_T) :
  NewServer t σ0 = Some (s, σ1) →
  queues σ !! Server_engine s = Some Q →
  Forall (λ e, ¬ matches e (Request_Method req) (getPathOnly req)) (queue Q) →
  tests σ !! t = Some T →
  let msg := "httpt.Server: RoundTripFunc not mocked for this request "
             +:+ Request_Method req +:+ ":" +:+ getPathOnly req in
  let σ' := {| queues := queues σ;
               tests := <[t := {| T_failed := true;
                                  T_errorfs := T_errorfs T ++ [msg] |}]> (tests σ) |} in
  RoundTrip (Server_HTTPClient s) req σ =
    Some ((Some {| StatusCode := StatusInternalServerError;
                   Body := msg; Header := ∅ |}, None), σ')
  ∧ StatusInternalServerError = 500%Z
  ∧ Server_Len s σ = Some (length (queue Q), σ)
  ∧ Server_Len s σ' = Some (length (queue Q), σ').
Proof.
  rewrite NewServer_run. intros [= <- <-] Hq HQ Ht msg σ'.
  split; [|split; [reflexivity|split]].
  - rewrite (RoundTrip_no_match (Server_HTTPClient _) req σ Q Hq HQ). simpl.
    unfold call, NotMockedFunc, T_Errorf. by rewrite Ht.
  - by apply Server_Len_run.
  - by apply Server_Len_run.
Qed.

(** C7. When an entry of the queue matches the request, [RoundTrip] calls the
    round trip function of the first such entry with the request and returns
    its response and error as they are; a function made by [FailureFunc]
    so hands its error to the caller of [RoundTrip]. *)
Theorem roundtrip_returns_result_verbatim (t : transport) (req : Request)
    (σ : state) (Q : tripQueue) (l1 : list tripEntry) (e : tripEntry)
    (l2 : list tripEntry) :
  queues σ !! Server_engine (transport_s t) = Some Q →
  queue Q = l1 ++ e :: l2 →
  Forall (λ e', ¬ matches e' (Request_Method req) (getPathOnly req)) l1 →
  matches e (Request_Method req) (getPathOnly req) →
  let qs := <[Server_engine (transport_s t) := {| queue := l1 ++ l2 |}]> (queues σ) in
  RoundTrip t req σ =
    call (tripEntry_trip e) req {| queues := qs; tests := tests σ |}
  ∧ (∀ f res ts,
       tripEntry_trip e = Some f →
       f req (tests σ) = Some (res, ts) →
       RoundTrip t req σ = Some (res, {| queues := qs; tests := ts |}))
  ∧ (∀ err,
       tripEntry_trip e = FailureFunc err →
       RoundTrip t req σ = Some ((None, err), {| queues := qs; tests := tests σ |})).
Proof.
  intros Hq HQ Hl1 He qs.
  pose proof (RoundTrip_match _ _ _ _ _ _ _ Hq HQ Hl1 He) as Hrt.
  split; [exact Hrt|]. split.
  - intros f res ts Hf Hres. rewrite Hrt, Hf. unfold call. simpl.
    by rewrite Hres.
  - intros err Hf. rewrite Hrt, Hf. reflexivity.
Qed.

(** ** Reset and the builders *)

(** C8. [Reset] leaves the queue of the server empty whatever it held:
    [Len] is 0 and every request, whatever the tests have recorded by then,
    goes to the default round trip, or to the error when there is none, and
    leaves the queue empty for the next one.  Entries pushed afterwards make
    up the whole queue, just as entries pushed on a server fresh from
    [NewRawServer]. *)
Theorem reset_empties_queue (s : Server) (σ : state) (Q : tripQueue) :
  queues σ !! Server_engine s = Some Q →
  let σ' := {| queues := <[Server_engine s := {| queue := [] |}]> (queues σ);
               tests := tests σ |} in
  Server_Reset s σ = Some (tt, σ')
  ∧ Server_Len s σ' = Some (0%nat, σ')
  ∧ (∀ ts req,
       let σt := {| queues := queues σ'; tests := ts |} in
       RoundTrip (Server_HTTPClient s) req σt =
         match DefaultRoundTrip s with
         | None =>
             Some ((None, Some (errorString
                      ("httpt.Server request not mocked for this request "
                       +:+ Request_Method req +:+ ":" +:+ getPathOnly req))), σt)
         | Some _ => call (DefaultRoundTrip s) req σt
         end
       ∧ ∀ res σn,
           RoundTrip (Server_HTTPClient s) req σt = Some (res, σn) →
           queues σn = queues σ')
  ∧ (∀ es, ∃ σ'',
       push_all s es σ' = Some (tt, σ'') ∧
       queues σ'' !! Server_engine s = Some {| queue := es |})
  ∧ (∀ σ0 es, ∃ s0 σ1 σ2,
       NewRawServer σ0 = Some (s0, σ1) ∧
       push_all s0 es σ1 = Some (tt, σ2) ∧
       queues σ2 !! Server_engine s0 = Some {| queue := es |}).
Proof.
  intros Hq σ'.
  assert (Hq' : queues σ' !! Server_engine s = Some {| queue := [] |})
    by (simpl; apply lookup_insert_eq).
  split; [|split; [|split; [|split]]].
  - unfold Server_Reset, tripQueue_reset, store. by rewrite Hq.
  - by rewrite (Server_Len_run _ _ _ Hq').
  - intros ts req σt.
    assert (Hrt := RoundTrip_no_match (Server_HTTPClient s) req σt
                     {| queue := [] |} Hq' (Forall_nil_2 _)).
    split; [exact Hrt|]. intros res σn. rewrite Hrt. simpl.
    destruct (DefaultRoundTrip s) as [f|]; [|by intros [= _ <-]].
    unfold call. simpl. destruct (f req ts) as [[res' ts']|]; [|done].
    by intros [= _ <-].
  - intros es. destruct (push_all_run s es σ' _ Hq') as (σ'' & Hrun & Hq'' & _).
    by exists σ''.
  - intros σ0 es.
    pose (s0 := {| Server_tripBuilder :=
                     {| tripBuilder_tripPusher :=
                          newTripPusher (fresh (dom (queues σ0))) ANY AnyPath |};
                   DefaultRoundTrip := None |}).
    pose (σ1 := {| queues := <[fresh (dom (queues σ0)) := {| queue := [] |}]>
                               (queues σ0);
                   tests := tests σ0 |}).
    destruct (push_all_run s0 es σ1 {| queue := [] |})
      as (σ2 & Hrun & Hq2 & _); [simpl; apply lookup_insert_eq|].
    exists s0, σ1, σ2. split; [apply NewRawServer_run|]. by split.
Qed.

(** C9. On a server made by [NewServer] or [NewRawServer], [Push(f)] is
    [On(ANY, AnyPath).Push(f)]: both append the entry with method [ANY], path
    [AnyPath] and function [f] to the tail of the queue of the server. *)
Theorem push_is_on_any_push (t : loc) (σ0 : state) (s : Server) (σ1 : state)
    (f : RoundTripFunc) :
  NewServer t σ0 = Some (s, σ1) ∨ NewRawServer σ0 = Some (s, σ1) →
  Server_Push s f = tripPusher_Push (Server_On s ANY AnyPath) f
  ∧ tripPusher_engine (Server_On s ANY AnyPath) = Server_engine s
  ∧ (∀ σ Q,
       queues σ !! Server_engine s = Some Q →
       let σ' := {| queues := <[Server_engine s :=
                       {| queue := queue Q ++
                            [ {| tripEntry_method := ANY;
                                 tripEntry_path := AnyPath;
                                 tripEntry_trip := f |} ] |}]> (queues σ);
                    tests := tests σ |} in
       Server_Push s f σ = Some (tt, σ') ∧
       tripPusher_Push (Server_On s ANY AnyPath) f σ = Some (tt, σ')).
Proof.
  rewrite NewServer_run, NewRawServer_run.
  intros [[= <- <-]|[= <- <-]]; (split; [reflexivity|split; [reflexivity|]]);
    intros σ Q Hq σ'; split;
    apply (tripQueue_push_run _ ANY AnyPath f σ Q Hq).
Qed.

(** ** Further properties of the path *)

Lemma string_app_cons c (a b : string) : String c a +:+ b = String c (a +:+ b).
Proof. reflexivity. Qed.

Lemma strings_Contains_app_sep p rest :
  strings_Contains (p +:+ String "?" rest) "?" = true.
Proof.
  induction p as [|c p IH]; [reflexivity|].
  rewrite string_app_cons. simpl. by destruct (Ascii.eqb c "?").
Qed.

Lemma strings_Split_app_sep p rest :
  strings_Contains p "?" = false →
  ∃ xs, strings_Split (p +:+ String "?" rest) "?" = p :: xs.
Proof.
  induction p as [|c p IH]; intros Hp.
  - by exists (strings_Split rest "?").
  - simpl in Hp. rewrite string_app_cons. simpl.
    destruct (Ascii.eqb c "?"); [discriminate|].
    destruct (IH Hp) as [xs ->]. by exists xs.
Qed.

(** [getPathOnly] cuts the rendered URL at its first ["?"]: a URL without
    ["?"] comes back whole, a URL [p?rest] with no ["?"] in [p] gives [p], and
    the result never holds a ["?"]. *)
Theorem getPathOnly_cuts_at_first_mark (req : Request) :
  let u := URL_String (Request_URL req) in
  strings_Contains (getPathOnly req) "?" = false
  ∧ (strings_Contains u "?" = false → getPathOnly req = u)
  ∧ (∀ p rest, u = p +:+ String "?" rest →
               strings_Contains p "?" = false → getPathOnly req = p)
  ∧ (strings_Contains u "?" = true →
     ∃ rest, u = getPathOnly req +:+ String "?" rest).
Proof.
  intros u. split; [apply getPathOnly_strips_query|]. split; [|split].
  - intros Hu. unfold getPathOnly. fold u. by rewrite Hu.
  - intros p rest Hu Hp. unfold getPathOnly. fold u.
    rewrite Hu, strings_Contains_app_sep.
    by destruct (strings_Split_app_sep p rest Hp) as [xs ->].
  - intros Hu. unfold getPathOnly. fold u. rewrite Hu.
    destruct (strings_Split_head u) as (x & xs & Hs & _ & Hrest).
    rewrite Hu in Hrest. by rewrite Hs.
Qed.

(** Two requests with the same method whose URLs differ only from the first
    ["?"] on are looked up with the same method and path, so [pop] treats
    them alike. *)
Theorem query_does_not_change_lookup (r1 r2 : Request) (p q1 : string) :
  Request_Method r1 = Request_Method r2 →
  strings_Contains p "?" = false →
  URL_String (Request_URL r1) = p +:+ String "?" q1 →
  (URL_String (Request_URL r2) = p ∨
   ∃ q2, URL_String (Request_URL r2) = p +:+ String "?" q2) →
  getPathOnly r1 = p ∧ getPathOnly r2 = p ∧
  ∀ q, tripQueue_pop q (Request_Method r1) (getPathOnly r1)
       = tripQueue_pop q (Request_Method r2) (getPathOnly r2).
Proof.
  intros Hm Hp H1 H2.
  assert (G1 : getPathOnly r1 = p).
  { unfold getPathOnly. rewrite H1, strings_Contains_app_sep.
    by destruct (strings_Split_app_sep p q1 Hp) as [xs ->]. }
  assert (G2 : getPathOnly r2 = p).
  { unfold getPathOnly. destruct H2 as [->|[q2 ->]].
    - by rewrite Hp.
    - rewrite strings_Contains_app_sep.
      by destruct (strings_Split_app_sep p q2 Hp) as [xs ->]. }
  split; [done|]. split; [done|]. intros q. by rewrite G1, G2, Hm.
Qed.

(** ** Further properties of dispatch *)

(** The closures of the package leave the queues alone. *)
Lemma package_func_call r req σ res σ' :
  package_func r → call r req σ = Some (res, σ') → queues σ' = queues σ.
Proof.
  intros [code msg|code json|err|t]; unfold call; simpl.
  - by intros [= _ <-].
  - by intros [= _ <-].
  - by intros [= _ <-].
  - unfold T_Errorf. destruct (tests σ !! t) as [T|]; [|done].
    by intros [= _ <-].
Qed.


(** On a server whose queued functions and default are the package's own
    closures (or no default at all), [RoundTrip] never adds an entry and
    never reorders the queue: when it returns, the queue of its server is the
    old one, or the old one without one entry, and every other queue is
    untouched. *)
Theorem roundtrip_only_shrinks_queue (t : transport) (req : Request)
    (σ : state) (Q : tripQueue) (res : result) (σ' : state) :
  queues σ !! Server_engine (transport_s t) = Some Q →
  Forall (λ e, package_func (tripEntry_trip e)) (queue Q) →
  DefaultRoundTrip (transport_s t) = None ∨
    package_func (DefaultRoundTrip (transport_s t)) →
  RoundTrip t req σ = Some (res, σ') →
  (∃ Q', queues σ' !! Server_engine (transport_s t) = Some Q' ∧
         (queue Q' = queue Q ∨
          ∃ l1 e l2, queue Q = l1 ++ e :: l2 ∧ queue Q' = l1 ++ l2))
  ∧ ∀ q', q' ≠ Server_engine (transport_s t) →
          queues σ' !! q' = queues σ !! q'.
Proof.
  intros Hq Hpkg Hdef.
  destruct (pop_range (Request_Method req) (getPathOnly req) 0 (queue Q))
    as [[i e]|] eqn:Hr.
  - apply pop_range_Some in Hr as (l1 & l2 & HQ & _ & Hl1 & He).
    rewrite (RoundTrip_match _ _ _ _ _ _ _ Hq HQ Hl1 He). intros Hc.
    assert (Hpe : package_func (tripEntry_trip e)).
    { rewrite HQ in Hpkg. apply Forall_app in Hpkg as [_ Hpkg].
      by apply Forall_cons in Hpkg as [Hpe _]. }
    apply (package_func_call _ _ _ _ _ Hpe) in Hc. rewrite Hc. simpl. split.
    + exists {| queue := l1 ++ l2 |}. split; [apply lookup_insert_eq|].
      right. by exists l1, e, l2.
    + intros q' Hne. by rewrite lookup_insert_ne.
  - apply pop_range_None in Hr.
    rewrite (RoundTrip_no_match _ _ _ _ Hq Hr). intros Hc.
    assert (Hqs : queues σ' = queues σ).
    { destruct Hdef as [Hd|Hd].
      - rewrite Hd in Hc. by injection Hc as _ <-.
      - destruct (DefaultRoundTrip (transport_s t)) as [f|] eqn:Hf.
        + by apply (package_func_call _ _ _ _ _ Hd) in Hc.
        + by injection Hc as _ <-. }
    rewrite Hqs. split; [|done]. exists Q. split; [done|]. by left.
Qed.

Lemma state_eta (σ : state) : {| queues := queues σ; tests := tests σ |} = σ.
Proof. by destruct σ. Qed.

Lemma tripQueue_eta (Q : tripQueue) : {| queue := queue Q |} = Q.
Proof. by destruct Q. Qed.

(** A push through [On(method, path)] followed by a request that only the
    new entry matches: the pushed function is called, and the queue is the
    one before the push. *)
Lemma push_then_RoundTrip s method path r req σ Q :
  queues σ !! Server_engine s = Some Q →
  Forall (λ e, ¬ matches e (Request_Method req) (getPathOnly req)) (queue Q) →
  matches {| tripEntry_method := method; tripEntry_path := path;
             tripEntry_trip := r |} (Request_Method req) (getPathOnly req) →
  (tripPusher_Push (Server_On s method path) r;;
   RoundTrip (Server_HTTPClient s) req) σ = call r req σ.
Proof.
  intros Hq HQ He. unfold mbind, M_bind, bind.
  unfold tripPusher_Push, Server_On, tripBuilder_On. simpl.
  fold (Server_engine s). rewrite (tripQueue_push_run _ _ _ _ _ _ Hq).
  erewrite (RoundTrip_match (Server_HTTPClient s) req _ _ (queue Q) _ []);
    [|simpl; apply lookup_insert_eq|reflexivity|done|done].
  simpl. rewrite insert_insert_eq, app_nil_r, tripQueue_eta.
  rewrite (insert_id _ _ _ Hq). by rewrite state_eta.
Qed.


(** [StringResponseFunc(code, msg)], pushed with [Push] on a server whose
    queue holds nothing for the request, answers any request with the status
    [code], the body [msg], no header and no error; the tests and the queue
    are as before the push. *)
Theorem string_response_roundtrip (s : Server) (code : Z) (msg : string)
    (req : Request) (σ : state) (Q : tripQueue) :
  queues σ !! Server_engine s = Some Q →
  Forall (λ e, ¬ matches e (Request_Method req) (getPathOnly req)) (queue Q) →
  (tripPusher_Push (Server_On s ANY AnyPath) (StringResponseFunc code msg);;
   RoundTrip (Server_HTTPClient s) req) σ
  = Some ((Some {| StatusCode := code; Body := msg; Header := ∅ |}, None), σ).
Proof.
  intros Hq HQ.
  rewrite (push_then_RoundTrip s ANY AnyPath _ req σ Q Hq HQ);
    [|split; by left].
  unfold call, StringResponseFunc. by rewrite state_eta.
Qed.

(** [JSONResponseFunc(code, json)] likewise answers any request with the
    status [code] and the body [json], and its one header is [Content-Type]
    with the value [application/json]. *)
Theorem json_response_roundtrip (s : Server) (code : Z) (json : string)
    (req : Request) (σ : state) (Q : tripQueue) :
  queues σ !! Server_engine s = Some Q →
  Forall (λ e, ¬ matches e (Request_Method req) (getPathOnly req)) (queue Q) →
  ∃ resp,
    (tripPusher_Push (Server_On s ANY AnyPath) (JSONResponseFunc code json);;
     RoundTrip (Server_HTTPClient s) req) σ = Some ((Some resp, None), σ) ∧
    StatusCode resp = code ∧ Body resp = json ∧
    Header resp !! "Content-Type" = Some ["application/json"] ∧
    ∀ k, k ≠ "Content-Type" → Header resp !! k = None.
Proof.
  intros Hq HQ. eexists. split.
  - rewrite (push_then_RoundTrip s ANY AnyPath _ req σ Q Hq HQ);
      [|split; by left].
    unfold call, JSONResponseFunc. by rewrite state_eta.
  - simpl. split; [done|]. split; [done|]. split.
    + apply lookup_singleton_eq.
    + intros k Hk. by apply lookup_singleton_ne.
Qed.

(** [Push] takes a [nil] function without complaint: [Len] grows by one.
    The request that reaches that entry panics in [RoundTrip]. *)
Theorem nil_function_panics_at_dispatch (s : Server) (method : Method)
    (path : string) (req : Request) (σ : state) (Q : tripQueue) :
  queues σ !! Server_engine s = Some Q →
  Forall (λ e, ¬ matches e (Request_Method req) (getPathOnly req)) (queue Q) →
  (method = ANY ∨ method = Request_Method req) →
  (path = AnyPath ∨ path = getPathOnly req) →
  (tripPusher_Push (Server_On s method path) None;; Server_Len s) σ
  = Some (S (length (queue Q)),
          {| queues := <[Server_engine s :=
                           {| queue := queue Q ++
                                [ {| tripEntry_method := method;
                                     tripEntry_path := path;
                                     tripEntry_trip := None |} ] |}]> (queues σ);
             tests := tests σ |})
  ∧ (tripPusher_Push (Server_On s method path) None;;
     RoundTrip (Server_HTTPClient s) req) σ = None.
Proof.
  intros Hq HQ Hm Hp. split.
  - unfold mbind, M_bind, bind.
    unfold tripPusher_Push, Server_On, tripBuilder_On. simpl.
    fold (Server_engine s). rewrite (tripQueue_push_run _ _ _ _ _ _ Hq).
    erewrite Server_Len_run by (simpl; apply lookup_insert_eq).
    simpl. rewrite length_app. simpl. do 2 f_equal. lia.
  - by rewrite (push_then_RoundTrip s method path None req σ Q Hq HQ (conj Hm Hp)).
Qed.

(** First in, first out: when the queue starts with entries [es] that all
    match a request and whose functions are the package's own closures,
    sending that request once per entry calls their functions in the order
    of the queue and leaves what was behind them. *)
Theorem fifo_service_order (t : transport) (req : Request)
    (es rest : list tripEntry) : ∀ σ,
  queues σ !! Server_engine (transport_s t) = Some {| queue := es ++ rest |} →
  Forall (λ e, matches e (Request_Method req) (getPathOnly req)) es →
  Forall (λ e, package_func (tripEntry_trip e)) es →
  dispatch_all t (replicate (length es) req) σ =
    match calls es req (tests σ) with
    | Some (rs, ts) =>
        Some (rs, {| queues := <[Server_engine (transport_s t) :=
                                   {| queue := rest |}]> (queues σ);
                     tests := ts |})
    | None => None
    end.
Proof.
  induction es as [|e es IH]; intros σ Hq Hes Hpkg.
  - simpl. unfold mret, M_ret, ret. f_equal. f_equal.
    rewrite (insert_id _ _ _ Hq). by rewrite state_eta.
  - inversion Hes as [|? ? He Hes']; subst.
    inversion Hpkg as [|? ? Hpe Hpkg']; subst.
    simpl. unfold mbind, M_bind, bind.
    rewrite (RoundTrip_match t req σ {| queue := (e :: es) ++ rest |}
               [] e (es ++ rest) Hq eq_refl (Forall_nil_2 _) He).
    unfold call. simpl. destruct (tripEntry_trip e) as [f|]; [|done].
    destruct (f req (tests σ)) as [[res ts1]|]; [|done].
    rewrite IH; [|simpl; apply lookup_insert_eq|done|done]. simpl.
    destruct (calls es req ts1) as [[rs ts2]|]; [|done].
    unfold mret, M_ret, ret. by rewrite insert_insert_eq.
Qed.

(** On a server whose default is [NotMockedFunc(t)], requests that no entry
    matches are each reported to the test, in the order they come: every one
    gets status 500 with the message as body, the messages are appended to
    the test's [Errorf] calls, the test is failed once there was a request
    (and stays failed if it was), and the queues and the other tests are
    untouched. *)
Theorem unmatched_requests_reported_in_order (tr : transport) (t : loc)
    (reqs : list Request) (Q : tripQueue) : ∀ (σ : state) (T : testing_T),
  DefaultRoundTrip (transport_s tr) = NotMockedFunc t →
  queues σ !! Server_engine (transport_s tr) = Some Q →
  Forall (λ req, Forall (λ e, ¬ matches e (Request_Method req) (getPathOnly req))
                        (queue Q)) reqs →
  tests σ !! t = Some T →
  let msg := λ req, "httpt.Server: RoundTripFunc not mocked for this request "
                    +:+ Request_Method req +:+ ":" +:+ getPathOnly req in
  ∃ σ' T',
    dispatch_all tr reqs σ =
      Some (map (λ req, (Some {| StatusCode := StatusInternalServerError;
                                 Body := msg req; Header := ∅ |}, None)) reqs,
            σ') ∧
    queues σ' = queues σ ∧
    tests σ' !! t = Some T' ∧
    T_errorfs T' = T_errorfs T ++ map msg reqs ∧
    (reqs ≠ [] ∨ T_failed T = true → T_failed T' = true) ∧
    ∀ t', t' ≠ t → tests σ' !! t' = tests σ !! t'.
Proof.
  induction reqs as [|req reqs IH]; intros σ T Hd Hq Hreqs Ht msg; subst msg.
  - exists σ, T. split; [done|]. split; [done|]. split; [done|].
    split; [by rewrite app_nil_r|]. split; [|done]. by intros [?|?].
  - inversion Hreqs as [|? ? HQ Hreqs']; subst.
    simpl dispatch_all. unfold mbind, M_bind, bind.
    rewrite (RoundTrip_no_match _ _ _ _ Hq HQ), Hd. simpl.
    unfold call, NotMockedFunc, T_Errorf. rewrite Ht. simpl.
    match goal with |- context [dispatch_all tr reqs ?σ1] =>
      destruct (IH σ1 {| T_failed := true;
                         T_errorfs := T_errorfs T ++
                           ["httpt.Server: RoundTripFunc not mocked for this request "
                            +:+ Request_Method req +:+ ":" +:+ getPathOnly req] |}
                  Hd Hq Hreqs')
        as (σ' & T' & Hrun & Hqs & Ht' & Herr & Hfail & Hother) end.
    { simpl. apply lookup_insert_eq. }
    rewrite Hrun. exists σ', T'.
    split; [done|]. split; [done|]. split; [done|].
    split; [rewrite Herr; simpl; by rewrite <- List.app_assoc|]. split.
    + intros _. apply Hfail. by right.
    + intros t' Hne. rewrite (Hother t' Hne). simpl.
      by rewrite lookup_insert_ne.
Qed.

(** ** Further properties of the server *)

Lemma Server_StillExpectedRTs_run s σ Q :
  queues σ !! Server_engine s = Some Q →
  Server_StillExpectedRTs s σ = Some (map describe (queue Q), σ).
Proof. intros Hq. unfold Server_StillExpectedRTs. run_M. by rewrite Hq. Qed.

(** [StillExpectedRTs] lists the entries that [Len] counts, in the order of
    the queue: nothing for an empty queue; a push through [On(method, path)]
    adds the line [[method]path] at the end; a lookup that takes an entry
    removes that entry's line and no other. *)
Theorem still_expected_tracks_queue (s : Server) (σ : state) (Q : tripQueue) :
  queues σ !! Server_engine s = Some Q →
  ∃ ds,
    Server_StillExpectedRTs s σ = Some (ds, σ) ∧
    Server_Len s σ = Some (length ds, σ) ∧
    (queue Q = [] → ds = []) ∧
    (∀ method path r, ∃ σ',
       tripPusher_Push (Server_On s method path) r σ = Some (tt, σ') ∧
       Server_StillExpectedRTs s σ'
       = Some (ds ++ ["[" +:+ method +:+ "]" +:+ path], σ')) ∧
    (∀ method path l1 e l2,
       queue Q = l1 ++ e :: l2 →
       Forall (λ e', ¬ matches e' method path) l1 →
       matches e method path →
       ∃ σ' d1 d2,
         tripQueue_pop (Server_engine s) method path σ
         = Some ((tripEntry_trip e, true), σ') ∧
         ds = d1 ++ ("[" +:+ tripEntry_method e +:+ "]" +:+ tripEntry_path e) :: d2 ∧
         length d1 = length l1 ∧
         Server_StillExpectedRTs s σ' = Some (d1 ++ d2, σ')).
Proof.
  intros Hq. exists (map describe (queue Q)).
  split; [by apply Server_StillExpectedRTs_run|].
  split; [rewrite length_map; by apply Server_Len_run|].
  split; [by intros ->|]. split.
  - intros method path r. eexists. split.
    + unfold tripPusher_Push, Server_On, tripBuilder_On. simpl.
      fold (Server_engine s). by apply tripQueue_push_run.
    + erewrite Server_StillExpectedRTs_run by (simpl; apply lookup_insert_eq).
      simpl. by rewrite map_app.
  - intros method path l1 e l2 HQ Hl1 He.
    exists {| queues := <[Server_engine s := {| queue := l1 ++ l2 |}]> (queues σ);
              tests := tests σ |}, (map describe l1), (map describe l2).
    split; [by apply (tripQueue_pop_match _ _ _ _ Q)|].
    split; [by rewrite HQ, map_app|]. split; [by rewrite length_map|].
    erewrite Server_StillExpectedRTs_run by (simpl; apply lookup_insert_eq).
    simpl. by rewrite map_app.
Qed.

(** A server made while another one is alive gets a queue of its own: its
    engine differs from the other's, making it leaves the other's queue as it
    is, and pushes and resets on the new server never touch the other's
    queue. *)
Theorem servers_do_not_share_queue (s1 : Server) (t : loc) (σ : state)
    (s2 : Server) (σ' : state) :
  is_Some (queues σ !! Server_engine s1) →
  NewServer t σ = Some (s2, σ') ∨ NewRawServer σ = Some (s2, σ') →
  Server_engine s2 ≠ Server_engine s1
  ∧ queues σ' !! Server_engine s1 = queues σ !! Server_engine s1
  ∧ queues σ' !! Server_engine s2 = Some {| queue := [] |}
  ∧ (∀ method path r σa σb,
       tripPusher_Push (Server_On s2 method path) r σa = Some (tt, σb) →
       queues σb !! Server_engine s1 = queues σa !! Server_engine s1)
  ∧ (∀ σa σb,
       Server_Reset s2 σa = Some (tt, σb) →
       queues σb !! Server_engine s1 = queues σa !! Server_engine s1).
Proof.
  intros Hs1 Hnew.
  assert (Hfresh : fresh (dom (queues σ)) ≠ Server_engine s1).
  { intros Heq. apply elem_of_dom in Hs1. rewrite <- Heq in Hs1.
    by apply is_fresh in Hs1. }
  assert (He2 : Server_engine s2 = fresh (dom (queues σ)) ∧
                queues σ' = <[fresh (dom (queues σ)) := {| queue := [] |}]> (queues σ)).
  { revert Hnew. rewrite NewServer_run, NewRawServer_run.
    by intros [[= <- <-]|[= <- <-]]. }
  destruct He2 as [He2 Hσ']. rewrite He2, Hσ'.
  split; [done|]. split; [by rewrite lookup_insert_ne|].
  split; [apply lookup_insert_eq|]. split.
  - intros method path r σa σb.
    unfold tripPusher_Push, Server_On, tripBuilder_On, tripQueue_push. simpl.
    fold (Server_engine s2). rewrite He2. run_M.
    destruct (queues σa !! fresh (dom (queues σ))) as [Qa|] eqn:Hqa; [|done].
    simpl. rewrite Hqa. intros [= <-]. simpl. by rewrite lookup_insert_ne.
  - intros σa σb. unfold Server_Reset, tripQueue_reset, store. rewrite He2.
    destruct (queues σa !! fresh (dom (queues σ))) as [Qa|]; [|done].
    intros [= <-]. simpl. by rewrite lookup_insert_ne.
Qed.

(** After a [Reset], a push through [On(method, path)] makes a queue of that
    one entry, whatever was queued before: [Len] is 1 and [StillExpectedRTs]
    is the one line [[method]path]. *)
Theorem reset_then_push (s : Server) (method : Method) (path : string)
    (r : RoundTripFunc) (σ : state) (Q : tripQueue) :
  queues σ !! Server_engine s = Some Q →
  let σ' := {| queues := <[Server_engine s :=
                            {| queue := [ {| tripEntry_method := method;
                                             tripEntry_path := path;
                                             tripEntry_trip := r |} ] |}]>
                           (queues σ);
               tests := tests σ |} in
  (Server_Reset s;; tripPusher_Push (Server_On s method path) r) σ
  = Some (tt, σ')
  ∧ Server_Len s σ' = Some (1%nat, σ')
  ∧ Server_StillExpectedRTs s σ' = Some (["[" +:+ method +:+ "]" +:+ path], σ').
Proof.
  intros Hq σ'. split; [|split].
  - unfold mbind, M_bind, bind, Server_Reset, tripQueue_reset, store.
    rewrite Hq. unfold tripPusher_Push, Server_On, tripBuilder_On. simpl.
    fold (Server_engine s).
    erewrite tripQueue_push_run by (simpl; apply lookup_insert_eq).
    simpl. unfold σ'. by rewrite insert_insert_eq.
  - by erewrite Server_Len_run by (simpl; apply lookup_insert_eq).
  - by erewrite Server_StillExpectedRTs_run by (simpl; apply lookup_insert_eq).
Qed.

End Httpt.

(** ** The properties at concrete servers

    The URLs are [url] values rendered by [url_String]. *)

Lemma pop_removes_first_match_witness :
  let e1 : @tripEntry url := mkTripEntry POST "/p" (FailureFunc None) in
  let e2 : @tripEntry url := mkTripEntry ANY AnyPath (StringResponseFunc 200 "hello") in
  let e3 : @tripEntry url := mkTripEntry GET "/p" None in
  let Q := {| queue := [e1; e2; e3] |} in
  let σ := {| queues := {[ 0%nat := Q ]}; tests := ∅ |} in
  queues σ !! 0%nat = Some Q ∧
  ((∃ l1 e l2,
       queue Q = l1 ++ e :: l2 ∧
       Forall (λ e', ¬ matches e' GET "/p") l1 ∧
       matches e GET "/p" ∧
       tripQueue_pop 0%nat GET "/p" σ =
         Some ((tripEntry_trip e, true),
               {| queues := <[0%nat := {| queue := l1 ++ l2 |}]> (queues σ);
                  tests := tests σ |}))
   ∨ (Forall (λ e, ¬ matches e GET "/p") (queue Q) ∧
      tripQueue_pop 0%nat GET "/p" σ = Some ((None, false), σ))).
Proof.
  intros. split; [reflexivity|].
  apply (pop_removes_first_match 0%nat GET "/p" σ Q). reflexivity.
Defined.

Lemma any_is_empty_method_witness :
  let e : @tripEntry url := mkTripEntry GET "/p" None in
  tripEntry_method e ≠ EmptyString ∧
  pop_range EmptyString "/p" 0 [e] = pop_range EmptyString "/p" 1 [].
Proof.
  intros.
  assert (HM : tripEntry_method e ≠ EmptyString) by discriminate.
  split; [exact HM|].
  pose (s := ({| Server_tripBuilder :=
                   {| tripBuilder_tripPusher := newTripPusher 0%nat ANY AnyPath |};
                 DefaultRoundTrip := None |} : @Server url)).
  pose proof (any_is_empty_method s "/p" None) as (_ & _ & _ & _ & Hskip).
  exact (proj2 (Hskip e "/p" 0%nat []) HM).
Defined.

Lemma len_is_pushes_minus_lookups_witness :
  let s : @Server url :=
    {| Server_tripBuilder :=
         {| tripBuilder_tripPusher := newTripPusher 0%nat ANY AnyPath |};
       DefaultRoundTrip := None |} in
  let Q : @tripQueue url := {| queue := [] |} in
  let σ := {| queues := {[ 0%nat := Q ]}; tests := ∅ |} in
  let ops := [OpPush GET "/p" None; OpPop POST "/p"; OpPush ANY AnyPath None;
              OpPop GET "/p"; OpPop GET "/q"] in
  (queues σ !! Server_engine s = Some Q ∧ queue Q = []) ∧
  ∃ K σ',
    run_ops (Server_engine s) ops σ = Some (K, σ') ∧
    K ≤ pushes ops ∧
    Server_Len s σ' = Some ((pushes ops - K)%nat, σ').
Proof.
  intros.
  assert (Hq : queues σ !! Server_engine s = Some Q) by reflexivity.
  split; [by split|].
  exact (proj1 (len_is_pushes_minus_lookups s σ Q Hq) eq_refl ops).
Defined.


Lemma roundtrip_unmatched_reports_to_test_witness :
  let σ0 : @state url := {| queues := ∅; tests := {[ 7%nat := mkT false [] ]} |} in
  let s : @Server url :=
    {| Server_tripBuilder :=
         {| tripBuilder_tripPusher :=
              newTripPusher (fresh (dom (queues σ0))) ANY AnyPath |};
       DefaultRoundTrip := NotMockedFunc url_String 7%nat |} in
  let Q : @tripQueue url := {| queue := [] |} in
  let σ1 := {| queues := <[fresh (dom (queues σ0)) := Q]> (queues σ0);
               tests := tests σ0 |} in
  let req := mkRequest "GET" (mkUrl "" "" "/p" "" "") in
  let T := mkT false [] in
  let msg := "httpt.Server: RoundTripFunc not mocked for this request "
             +:+ Request_Method req +:+ ":" +:+ getPathOnly url_String req in
  let σ' := {| queues := queues σ1;
               tests := <[7%nat := {| T_failed := true;
                                      T_errorfs := T_errorfs T ++ [msg] |}]> (tests σ1) |} in
  (NewServer url_String 7%nat σ0 = Some (s, σ1) ∧
   queues σ1 !! Server_engine s = Some Q ∧
   Forall (λ e, ¬ matches e (Request_Method req) (getPathOnly url_String req))
          (queue Q) ∧
   tests σ1 !! 7%nat = Some T) ∧
  (RoundTrip url_String (Server_HTTPClient s) req σ1 =
     Some ((Some {| StatusCode := StatusInternalServerError;
                    Body := msg; Header := ∅ |}, None), σ')
   ∧ StatusInternalServerError = 500%Z
   ∧ Server_Len s σ1 = Some (length (queue Q), σ1)
   ∧ Server_Len s σ' = Some (length (queue Q), σ')).
Proof.
  intros.
  assert (H0 : NewServer url_String 7%nat σ0 = Some (s, σ1)) by reflexivity.
  assert (Hq : queues σ1 !! Server_engine s = Some Q) by reflexivity.
  assert (HQ : Forall (λ e, ¬ matches e (Request_Method req)
                                  (getPathOnly url_String req)) (queue Q))
    by constructor.
  assert (Ht : tests σ1 !! 7%nat = Some T) by reflexivity.
  split; [exact (conj H0 (conj Hq (conj HQ Ht)))|].
  exact (roundtrip_unmatched_reports_to_test url_String 7%nat σ0 s σ1 req σ1 Q T
           H0 Hq HQ Ht).
Defined.

Lemma roundtrip_returns_result_verbatim_witness :
  let s : @Server url :=
    {| Server_tripBuilder :=
         {| tripBuilder_tripPusher := newTripPusher 0%nat ANY AnyPath |};
       DefaultRoundTrip := None |} in
  let t := Server_HTTPClient s in
  let e0 : @tripEntry url := mkTripEntry POST "/p" (StringResponseFunc 200 "hello") in
  let e : @tripEntry url :=
    mkTripEntry ANY AnyPath (FailureFunc (Some (errorString "Context Deadline exceeded"))) in
  let Q := {| queue := [e0; e] |} in
  let σ := {| queues := {[ 0%nat := Q ]}; tests := ∅ |} in
  let req := mkRequest "GET" (mkUrl "" "" "/test/path" "" "") in
  let qs := <[Server_engine (transport_s t) := {| queue := [e0] ++ [] |}]> (queues σ) in
  (queues σ !! Server_engine (transport_s t) = Some Q ∧
   queue Q = [e0] ++ e :: [] ∧
   Forall (λ e', ¬ matches e' (Request_Method req) (getPathOnly url_String req)) [e0] ∧
   matches e (Request_Method req) (getPathOnly url_String req)) ∧
  RoundTrip url_String t req σ =
    Some ((None, Some (errorString "Context Deadline exceeded")),
          {| queues := qs; tests := tests σ |}).
Proof.
  intros.
  assert (Hq : queues σ !! Server_engine (transport_s t) = Some Q) by reflexivity.
  assert (HQ : queue Q = [e0] ++ e :: []) by reflexivity.
  assert (Hl1 : Forall (λ e', ¬ matches e' (Request_Method req)
                                    (getPathOnly url_String req)) [e0])
    by (refine (bool_decide_unpack _ _); vm_compute; exact I).
  assert (He : matches e (Request_Method req) (getPathOnly url_String req))
    by (refine (bool_decide_unpack _ _); vm_compute; exact I).
  split; [exact (conj Hq (conj HQ (conj Hl1 He)))|].
  exact (proj2 (proj2 (roundtrip_returns_result_verbatim url_String t req σ Q
                         [e0] e [] Hq HQ Hl1 He))
           (Some (errorString "Context Deadline exceeded")) eq_refl).
Defined.

Lemma reset_empties_queue_witness :
  let s : @Server url :=
    {| Server_tripBuilder :=
         {| tripBuilder_tripPusher := newTripPusher 0%nat ANY AnyPath |};
       DefaultRoundTrip := None |} in
  let Q : @tripQueue url :=
    {| queue := [mkTripEntry GET "/test/path" (StringResponseFunc 200 "hello");
                 mkTripEntry GET "/test/path" (StringResponseFunc 200 "hello")] |} in
  let σ := {| queues := {[ 0%nat := Q ]}; tests := ∅ |} in
  let σ' := {| queues := <[Server_engine s := {| queue := [] |}]> (queues σ);
               tests := tests σ |} in
  queues σ !! Server_engine s = Some Q ∧
  Server_Reset s σ = Some (tt, σ') ∧
  Server_Len s σ' = Some (0%nat, σ').
Proof.
  intros.
  assert (Hq : queues σ !! Server_engine s = Some Q) by reflexivity.
  split; [exact Hq|].
  pose proof (reset_empties_queue url_String s σ Q Hq) as (Hr & Hl & _).
  by split.
Defined.

Lemma push_is_on_any_push_witness :
  let σ0 : @state url := {| queues := ∅; tests := ∅ |} in
  let s : @Server url :=
    {| Server_tripBuilder :=
         {| tripBuilder_tripPusher :=
              newTripPusher (fresh (dom (queues σ0))) ANY AnyPath |};
       DefaultRoundTrip := None |} in
  let σ1 := {| queues := <[fresh (dom (queues σ0)) := {| queue := [] |}]> (queues σ0);
               tests := tests σ0 |} in
  let f : @RoundTripFunc url := StringResponseFunc 400 "really bad request" in
  NewRawServer σ0 = Some (s, σ1) ∧
  Server_Push s f = tripPusher_Push (Server_On s ANY AnyPath) f.
Proof.
  intros.
  assert (H0 : NewRawServer σ0 = Some (s, σ1)) by reflexivity.
  split; [exact H0|].
  exact (proj1 (push_is_on_any_push url_String 0%nat σ0 s σ1 f (or_intror H0))).
Defined.

(** ** The tests of the package, run *)

(** [TestServer_NoDefaultRT_Err]: an empty raw server answers with the
    error, and stays empty. *)
Example test_NoDefaultRT_Err :
  let σ0 : @state url := {| queues := ∅; tests := ∅ |} in
  let r := mkRequest GET (mkUrl "" "" "/test/path" "" "") in
  fst <$> (s ← NewRawServer;
           res ← RoundTrip url_String (Server_HTTPClient s) r;
           n ← Server_Len s;
           mret (res, n)) σ0
  = Some ((None, Some (errorString
             "httpt.Server request not mocked for this request GET:/test/path")),
          0%nat).
Proof. reflexivity. Qed.

(** [TestServer_OnWrongMethodProperPathRT_OK]: an entry for [POST] is not
    taken for a [GET] and stays queued. *)
Example test_OnWrongMethodProperPathRT :
  let σ0 : @state url := {| queues := ∅; tests := ∅ |} in
  let r := mkRequest GET (mkUrl "" "" "/test/path" "" "") in
  fst <$> (s ← NewRawServer;
           tripPusher_Push (Server_On s POST "/test/path")
                           (StringResponseFunc StatusOK "hello");;
           res ← RoundTrip url_String (Server_HTTPClient s) r;
           n ← Server_Len s;
           mret (res, n)) σ0
  = Some ((None, Some (errorString
             "httpt.Server request not mocked for this request GET:/test/path")),
          1%nat).
Proof. reflexivity. Qed.

(** [TestServer_RightOrderWithReset]: two entries, a reset, two entries
    again; two requests are served and the third finds the queue exhausted. *)
Example test_RightOrderWithReset :
  let σ0 : @state url := {| queues := ∅; tests := ∅ |} in
  let r := mkRequest GET (mkUrl "" "" "/test/path" "" "") in
  let hello := Some {| StatusCode := StatusOK; Body := "hello"; Header := ∅ |} in
  fst <$> (s ← NewRawServer;
           tripPusher_Push (Server_On s GET "/test/path")
                           (StringResponseFunc StatusOK "hello");;
           tripPusher_Push (Server_On s GET "/test/path")
                           (StringResponseFunc StatusOK "hello");;
           n0 ← Server_Len s;
           Server_Reset s;;
           tripPusher_Push (Server_On s GET "/test/path")
                           (StringResponseFunc StatusOK "hello");;
           tripPusher_Push (Server_On s GET "/test/path")
                           (StringResponseFunc StatusOK "hello");;
           n1 ← Server_Len s;
           res1 ← RoundTrip url_String (Server_HTTPClient s) r;
           n2 ← Server_Len s;
           res2 ← RoundTrip url_String (Server_HTTPClient s) r;
           n3 ← Server_Len s;
           res3 ← RoundTrip url_String (Server_HTTPClient s) r;
           mret ([n0; n1; n2; n3], [res1; res2; res3])) σ0
  = Some ([2; 2; 1; 0]%nat,
          [(hello, None); (hello, None);
           (None, Some (errorString
              "httpt.Server request not mocked for this request GET:/test/path"))]).
Proof. reflexivity. Qed.

(** A server from [NewServer], asked for a request it has no entry for:
    one [Errorf] on the test, a response with status 500, nothing queued. *)
Example test_NotMockedFunc :
  let σ0 : @state url := {| queues := ∅; tests := {[ 7%nat := mkT false [] ]} |} in
  let r := mkRequest GET (mkUrl "" "" "/p" "" "") in
  let msg := "httpt.Server: RoundTripFunc not mocked for this request GET:/p" in
  (s ← NewServer url_String 7%nat;
   res ← RoundTrip url_String (Server_HTTPClient s) r;
   n ← Server_Len s;
   mret (res, n)) σ0
  = Some (((Some {| StatusCode := 500; Body := msg; Header := ∅ |}, None), 0%nat),
          {| queues := {[ 0%nat := {| queue := [] |} ]};
             tests := {[ 7%nat := mkT true [msg] ]} |}).
Proof. reflexivity. Qed.

(** ** The path that is compared *)

(** C2. For a [GET] request to [http://example.com/p?x=1], whose path
    component is [/p], the entry pushed for [GET] and [/p] agrees with the
    request in method and in path and yet is not taken: [pop] returns
    [nil, false] and leaves it queued.  The entry pushed for [GET] and
    [http://example.com/p], whose path is neither [AnyPath] nor the path of
    the request, is taken. *)
Theorem pop_compares_rendered_url :
  let req := mkRequest "GET" (mkUrl "http" "example.com" "/p" "x=1" "") in
  let f : @RoundTripFunc url := StringResponseFunc 200 "hello" in
  let e := mkTripEntry GET "/p" f in
  let e' := mkTripEntry GET "http://example.com/p" f in
  let σ := λ e0, {| queues := {[ 0%nat := {| queue := [e0] |} ]}; tests := ∅ |} in
  (tripEntry_method e = Request_Method req ∧
   tripEntry_path e = Path (Request_URL req))
  ∧ tripQueue_pop 0%nat (Request_Method req) (getPathOnly url_String req) (σ e)
    = Some ((None, false), σ e)
  ∧ (tripEntry_method e' = Request_Method req ∧
     tripEntry_path e' ≠ AnyPath ∧
     tripEntry_path e' ≠ Path (Request_URL req))
  ∧ tripQueue_pop 0%nat (Request_Method req) (getPathOnly url_String req) (σ e')
    = Some ((f, true),
            {| queues := {[ 0%nat := {| queue := [] |} ]}; tests := ∅ |}).
Proof.
  intros. split; [by split|]. split; [reflexivity|].
  split; [|reflexivity]. split; [reflexivity|]. by split.
Qed.

(** C4. For a request to [http://example.com/p?x=1], whose path component is
    [/p], [getPathOnly] returns [http://example.com/p]: the scheme and the
    host stay in the string that is compared with the path of an entry, and
    an entry pushed for [GET] and [/p] is not taken for that request.  For a
    request to [/p#top] the fragment stays as well. *)
Theorem getPathOnly_keeps_scheme_and_host :
  let req := mkRequest "GET" (mkUrl "http" "example.com" "/p" "x=1" "") in
  let e : @tripEntry url := mkTripEntry GET "/p" (StringResponseFunc 200 "hello") in
  Path (Request_URL req) = "/p"
  ∧ url_String (Request_URL req) = "http://example.com/p?x=1"
  ∧ getPathOnly url_String req = "http://example.com/p"
  ∧ getPathOnly url_String req ≠ Path (Request_URL req)
  ∧ pop_range (Request_Method req) (getPathOnly url_String req) 0 [e] = None
  ∧ getPathOnly url_String (mkRequest "GET" (mkUrl "" "" "/p" "" "top")) = "/p#top".
Proof. intros. repeat split; try reflexivity. discriminate. Qed.

(** ** The further properties at concrete servers *)

Lemma getPathOnly_cuts_at_first_mark_witness :
  let req := mkRequest "GET" (mkUrl "" "" "/test/path" "a=1?b" "") in
  (url_String (Request_URL req) = "/test/path" +:+ String "?" "a=1?b" ∧
   strings_Contains "/test/path" "?" = false) ∧
  getPathOnly url_String req = "/test/path".
Proof.
  intros. split; [by split|].
  pose proof (getPathOnly_cuts_at_first_mark url_String req) as (_ & _ & H & _).
  exact (H "/test/path" "a=1?b" eq_refl eq_refl).
Defined.

Lemma query_does_not_change_lookup_witness :
  let r1 := mkRequest "GET" (mkUrl "" "" "/p" "x=1" "") in
  let r2 := mkRequest "GET" (mkUrl "" "" "/p" "y=2" "") in
  (Request_Method r1 = Request_Method r2 ∧
   strings_Contains "/p" "?" = false ∧
   url_String (Request_URL r1) = "/p" +:+ String "?" "x=1" ∧
   (url_String (Request_URL r2) = "/p" ∨
    ∃ q2, url_String (Request_URL r2) = "/p" +:+ String "?" q2)) ∧
  (getPathOnly url_String r1 = "/p" ∧ getPathOnly url_String r2 = "/p" ∧
   ∀ q, @tripQueue_pop url q (Request_Method r1) (getPathOnly url_String r1)
        = tripQueue_pop q (Request_Method r2) (getPathOnly url_String r2)).
Proof.
  intros.
  assert (H2 : url_String (Request_URL r2) = "/p" ∨
               ∃ q2, url_String (Request_URL r2) = "/p" +:+ String "?" q2)
    by (right; by exists "y=2").
  split; [exact (conj eq_refl (conj eq_refl (conj eq_refl H2)))|].
  exact (query_does_not_change_lookup url_String r1 r2 "/p" "x=1"
           eq_refl eq_refl eq_refl H2).
Defined.


Lemma roundtrip_only_shrinks_queue_witness :
  let s : @Server url :=
    {| Server_tripBuilder :=
         {| tripBuilder_tripPusher := newTripPusher 0%nat ANY AnyPath |};
       DefaultRoundTrip := None |} in
  let t := Server_HTTPClient s in
  let e1 : @tripEntry url := mkTripEntry POST "/p" (StringResponseFunc 200 "first") in
  let e2 : @tripEntry url := mkTripEntry GET "/p" (StringResponseFunc 200 "second") in
  let Q := {| queue := [e1; e2] |} in
  let σ := {| queues := {[ 0%nat := Q; 1%nat := {| queue := [e2] |} ]}; tests := ∅ |} in
  let σ' := {| queues := <[0%nat := {| queue := [e1] |}]> (queues σ); tests := ∅ |} in
  let req := mkRequest "GET" (mkUrl "" "" "/p" "" "") in
  let res : result :=
    (Some {| StatusCode := 200; Body := "second"; Header := ∅ |}, None) in
  (queues σ !! Server_engine (transport_s t) = Some Q ∧
   Forall (λ e, package_func url_String (tripEntry_trip e)) (queue Q) ∧
   (DefaultRoundTrip (transport_s t) = None ∨
    package_func url_String (DefaultRoundTrip (transport_s t))) ∧
   RoundTrip url_String t req σ = Some (res, σ')) ∧
  ((∃ Q', queues σ' !! Server_engine (transport_s t) = Some Q' ∧
          (queue Q' = queue Q ∨
           ∃ l1 e l2, queue Q = l1 ++ e :: l2 ∧ queue Q' = l1 ++ l2))
   ∧ ∀ q', q' ≠ Server_engine (transport_s t) →
           queues σ' !! q' = queues σ !! q').
Proof.
  intros.
  assert (Hq : queues σ !! Server_engine (transport_s t) = Some Q) by reflexivity.
  assert (Hr : RoundTrip url_String t req σ = Some (res, σ')) by reflexivity.
  assert (Hpkg : Forall (λ e, package_func url_String (tripEntry_trip e)) (queue Q))
    by (repeat constructor).
  assert (Hdef : DefaultRoundTrip (transport_s t) = None ∨
                 package_func url_String (DefaultRoundTrip (transport_s t)))
    by (by left).
  split; [exact (conj Hq (conj Hpkg (conj Hdef Hr)))|].
  exact (roundtrip_only_shrinks_queue url_String t req σ Q res σ' Hq Hpkg Hdef Hr).
Defined.


Lemma string_response_roundtrip_witness :
  let s : @Server url :=
    {| Server_tripBuilder :=
         {| tripBuilder_tripPusher := newTripPusher 0%nat ANY AnyPath |};
       DefaultRoundTrip := None |} in
  let Q : @tripQueue url := {| queue := [] |} in
  let σ := {| queues := {[ 0%nat := Q ]}; tests := ∅ |} in
  let req := mkRequest "GET" (mkUrl "" "" "/test/path" "" "") in
  (queues σ !! Server_engine s = Some Q ∧
   Forall (λ e, ¬ matches e (Request_Method req) (getPathOnly url_String req))
          (queue Q)) ∧
  (tripPusher_Push (Server_On s ANY AnyPath)
                   (StringResponseFunc StatusBadRequest "test_msg");;
   RoundTrip url_String (Server_HTTPClient s) req) σ
  = Some ((Some {| StatusCode := StatusBadRequest; Body := "test_msg";
                   Header := ∅ |}, None), σ).
Proof.
  intros.
  assert (Hq : queues σ !! Server_engine s = Some Q) by reflexivity.
  assert (HQ : Forall (λ e, ¬ matches e (Request_Method req)
                                  (getPathOnly url_String req)) (queue Q))
    by constructor.
  split; [exact (conj Hq HQ)|].
  exact (string_response_roundtrip url_String s StatusBadRequest "test_msg"
           req σ Q Hq HQ).
Defined.

Lemma json_response_roundtrip_witness :
  let s : @Server url :=
    {| Server_tripBuilder :=
         {| tripBuilder_tripPusher := newTripPusher 0%nat ANY AnyPath |};
       DefaultRoundTrip := None |} in
  let Q : @tripQueue url := {| queue := [] |} in
  let σ := {| queues := {[ 0%nat := Q ]}; tests := ∅ |} in
  let req := mkRequest "GET" (mkUrl "" "" "/test/path" "" "") in
  (queues σ !! Server_engine s = Some Q ∧
   Forall (λ e, ¬ matches e (Request_Method req) (getPathOnly url_String req))
          (queue Q)) ∧
  ∃ resp,
    (tripPusher_Push (Server_On s ANY AnyPath)
                     (JSONResponseFunc StatusBadRequest "{}");;
     RoundTrip url_String (Server_HTTPClient s) req) σ = Some ((Some resp, None), σ) ∧
    StatusCode resp = StatusBadRequest ∧ Body resp = "{}" ∧
    Header resp !! "Content-Type" = Some ["application/json"] ∧
    ∀ k, k ≠ "Content-Type" → Header resp !! k = None.
Proof.
  intros.
  assert (Hq : queues σ !! Server_engine s = Some Q) by reflexivity.
  assert (HQ : Forall (λ e, ¬ matches e (Request_Method req)
                                  (getPathOnly url_String req)) (queue Q))
    by constructor.
  split; [exact (conj Hq HQ)|].
  exact (json_response_roundtrip url_String s StatusBadRequest "{}" req σ Q Hq HQ).
Defined.

Lemma nil_function_panics_at_dispatch_witness :
  let s : @Server url :=
    {| Server_tripBuilder :=
         {| tripBuilder_tripPusher := newTripPusher 0%nat ANY AnyPath |};
       DefaultRoundTrip := None |} in
  let Q : @tripQueue url := {| queue := [] |} in
  let σ := {| queues := {[ 0%nat := Q ]}; tests := ∅ |} in
  let req := mkRequest "GET" (mkUrl "" "" "/test/path" "" "") in
  (queues σ !! Server_engine s = Some Q ∧
   Forall (λ e, ¬ matches e (Request_Method req) (getPathOnly url_String req))
          (queue Q) ∧
   (ANY = ANY ∨ ANY = Request_Method req) ∧
   (AnyPath = AnyPath ∨ AnyPath = getPathOnly url_String req)) ∧
  (tripPusher_Push (Server_On s ANY AnyPath) None;;
   RoundTrip url_String (Server_HTTPClient s) req) σ = None.
Proof.
  intros.
  assert (Hq : queues σ !! Server_engine s = Some Q) by reflexivity.
  assert (HQ : Forall (λ e, ¬ matches e (Request_Method req)
                                  (getPathOnly url_String req)) (queue Q))
    by constructor.
  assert (Hm : ANY = ANY ∨ ANY = Request_Method req) by (by left).
  assert (Hp : AnyPath = AnyPath ∨ AnyPath = getPathOnly url_String req)
    by (by left).
  split; [exact (conj Hq (conj HQ (conj Hm Hp)))|].
  exact (proj2 (nil_function_panics_at_dispatch url_String s ANY AnyPath req σ Q
                  Hq HQ Hm Hp)).
Defined.

Lemma fifo_service_order_witness :
  let s : @Server url :=
    {| Server_tripBuilder :=
         {| tripBuilder_tripPusher := newTripPusher 0%nat ANY AnyPath |};
       DefaultRoundTrip := None |} in
  let t := Server_HTTPClient s in
  let e1 : @tripEntry url := mkTripEntry ANY AnyPath (StringResponseFunc 200 "first") in
  let e2 : @tripEntry url := mkTripEntry GET "/p" (StringResponseFunc 200 "second") in
  let e3 : @tripEntry url := mkTripEntry POST "/p" (StringResponseFunc 200 "third") in
  let σ := {| queues := {[ 0%nat := {| queue := [e1; e2] ++ [e3] |} ]}; tests := ∅ |} in
  let req := mkRequest "GET" (mkUrl "" "" "/p" "" "") in
  (queues σ !! Server_engine (transport_s t) = Some {| queue := [e1; e2] ++ [e3] |} ∧
   Forall (λ e, matches e (Request_Method req) (getPathOnly url_String req)) [e1; e2] ∧
   Forall (λ e, package_func url_String (tripEntry_trip e)) [e1; e2]) ∧
  dispatch_all url_String t (replicate (length [e1; e2]) req) σ =
    match calls [e1; e2] req (tests σ) with
    | Some (rs, ts) =>
        Some (rs, {| queues := <[Server_engine (transport_s t) :=
                                   {| queue := [e3] |}]> (queues σ);
                     tests := ts |})
    | None => None
    end.
Proof.
  intros.
  assert (Hq : queues σ !! Server_engine (transport_s t)
               = Some {| queue := [e1; e2] ++ [e3] |}) by reflexivity.
  assert (Hes : Forall (λ e, matches e (Request_Method req)
                                     (getPathOnly url_String req)) [e1; e2])
    by (refine (bool_decide_unpack _ _); vm_compute; exact I).
  assert (Hpkg : Forall (λ e, package_func url_String (tripEntry_trip e)) [e1; e2])
    by (repeat constructor).
  split; [exact (conj Hq (conj Hes Hpkg))|].
  exact (fifo_service_order url_String t req [e1; e2] [e3] σ Hq Hes Hpkg).
Defined.

Lemma unmatched_requests_reported_in_order_witness :
  let s : @Server url :=
    {| Server_tripBuilder :=
         {| tripBuilder_tripPusher := newTripPusher 0%nat ANY AnyPath |};
       DefaultRoundTrip := NotMockedFunc url_String 7%nat |} in
  let tr := Server_HTTPClient s in
  let Q : @tripQueue url := {| queue := [] |} in
  let T := mkT false [] in
  let σ := {| queues := {[ 0%nat := Q ]}; tests := {[ 7%nat := T ]} |} in
  let reqs := [mkRequest "GET" (mkUrl "" "" "/a" "" "");
               mkRequest "POST" (mkUrl "" "" "/b" "" "")] in
  let msg := λ req : @Request url,
    "httpt.Server: RoundTripFunc not mocked for this request "
    +:+ Request_Method req +:+ ":" +:+ getPathOnly url_String req in
  (DefaultRoundTrip (transport_s tr) = NotMockedFunc url_String 7%nat ∧
   queues σ !! Server_engine (transport_s tr) = Some Q ∧
   Forall (λ req, Forall (λ e, ¬ matches e (Request_Method req)
                                         (getPathOnly url_String req))
                         (queue Q)) reqs ∧
   tests σ !! 7%nat = Some T) ∧
  ∃ σ' T',
    dispatch_all url_String tr reqs σ =
      Some (map (λ req, (Some {| StatusCode := StatusInternalServerError;
                                 Body := msg req; Header := ∅ |}, None)) reqs,
            σ') ∧
    queues σ' = queues σ ∧
    tests σ' !! 7%nat = Some T' ∧
    T_errorfs T' = T_errorfs T ++ map msg reqs ∧
    (reqs ≠ [] ∨ T_failed T = true → T_failed T' = true) ∧
    ∀ t', t' ≠ 7%nat → tests σ' !! t' = tests σ !! t'.
Proof.
  intros.
  assert (Hd : DefaultRoundTrip (transport_s tr) = NotMockedFunc url_String 7%nat)
    by reflexivity.
  assert (Hq : queues σ !! Server_engine (transport_s tr) = Some Q) by reflexivity.
  assert (Hr : Forall (λ req, Forall (λ e, ¬ matches e (Request_Method req)
                                                     (getPathOnly url_String req))
                                     (queue Q)) reqs)
    by (repeat constructor).
  assert (Ht : tests σ !! 7%nat = Some T) by reflexivity.
  split; [exact (conj Hd (conj Hq (conj Hr Ht)))|].
  exact (unmatched_requests_reported_in_order url_String tr 7%nat reqs Q σ T
           Hd Hq Hr Ht).
Defined.

Lemma still_expected_tracks_queue_witness :
  let s : @Server url :=
    {| Server_tripBuilder :=
         {| tripBuilder_tripPusher := newTripPusher 0%nat ANY AnyPath |};
       DefaultRoundTrip := None |} in
  let Q : @tripQueue url :=
    {| queue := [mkTripEntry GET "/test/path" None; mkTripEntry ANY AnyPath None] |} in
  let σ := {| queues := {[ 0%nat := Q ]}; tests := ∅ |} in
  queues σ !! Server_engine s = Some Q ∧
  ∃ ds, Server_StillExpectedRTs s σ = Some (ds, σ) ∧
        Server_Len s σ = Some (length ds, σ).
Proof.
  intros.
  assert (Hq : queues σ !! Server_engine s = Some Q) by reflexivity.
  split; [exact Hq|].
  destruct (still_expected_tracks_queue s σ Q Hq) as (ds & Hd & Hl & _).
  exists ds. by split.
Defined.

Lemma servers_do_not_share_queue_witness :
  let s1 : @Server url :=
    {| Server_tripBuilder :=
         {| tripBuilder_tripPusher := newTripPusher 0%nat ANY AnyPath |};
       DefaultRoundTrip := None |} in
  let Q : @tripQueue url := {| queue := [mkTripEntry GET "/p" None] |} in
  let σ := {| queues := {[ 0%nat := Q ]}; tests := ∅ |} in
  let s2 : @Server url :=
    {| Server_tripBuilder :=
         {| tripBuilder_tripPusher :=
              newTripPusher (fresh (dom (queues σ))) ANY AnyPath |};
       DefaultRoundTrip := None |} in
  let σ' := {| queues := <[fresh (dom (queues σ)) := {| queue := [] |}]> (queues σ);
               tests := tests σ |} in
  (is_Some (queues σ !! Server_engine s1) ∧ NewRawServer σ = Some (s2, σ')) ∧
  (Server_engine s2 ≠ Server_engine s1 ∧
   queues σ' !! Server_engine s1 = queues σ !! Server_engine s1).
Proof.
  intros.
  assert (H1 : is_Some (queues σ !! Server_engine s1)) by (by exists Q).
  assert (H2 : NewRawServer σ = Some (s2, σ')) by reflexivity.
  split; [exact (conj H1 H2)|].
  destruct (servers_do_not_share_queue url_String s1 0%nat σ s2 σ' H1 (or_intror H2))
    as (Hne & Hsame & _).
  by split.
Defined.

Lemma reset_then_push_witness :
  let s : @Server url :=
    {| Server_tripBuilder :=
         {| tripBuilder_tripPusher := newTripPusher 0%nat ANY AnyPath |};
       DefaultRoundTrip := None |} in
  let Q : @tripQueue url :=
    {| queue := [mkTripEntry GET "/old" None; mkTripEntry ANY AnyPath None] |} in
  let σ := {| queues := {[ 0%nat := Q ]}; tests := ∅ |} in
  let r : @RoundTripFunc url := StringResponseFunc 200 "hello" in
  let σ' := {| queues := <[Server_engine s :=
                            {| queue := [ {| tripEntry_method := GET;
                                             tripEntry_path := "/new";
                                             tripEntry_trip := r |} ] |}]>
                           (queues σ);
               tests := tests σ |} in
  queues σ !! Server_engine s = Some Q ∧
  (Server_Reset s;; tripPusher_Push (Server_On s GET "/new") r) σ = Some (tt, σ') ∧
  Server_StillExpectedRTs s σ' = Some (["[GET]/new"], σ').
Proof.
  intros.
  assert (Hq : queues σ !! Server_engine s = Some Q) by reflexivity.
  split; [exact Hq|].
  destruct (reset_then_push s GET "/new" r σ Q Hq) as (H1 & _ & H3).
  by split.
Defined.
